(** * Resource cache and offline fallback of the portfolio shell

    A shallow embedding of [StorageService], [CacheManager],
    [NetworkService], [ErrorHandler], the connectivity effect of
    [PortfolioScreen] and the first screens, with the properties of the
    cache (read after write, expiry, eviction, size accounting, key
    derivation, clearing) proved or refuted on it, and further
    properties of the cache, the first-time-user flag, the error log,
    the listeners and the offline fallback.

    Conventions of the embedding.
    - A JavaScript string is the sequence of its code units; it is a
      [string] here, one character per code unit, so the strings of the
      model are those whose code units are below 256.  [String.length]
      is the [.length] of the source and the character code is
      [charCodeAt]; nothing but the hash looks at the value of a unit.
    - JavaScript numbers that hold integers (sizes, millisecond clocks,
      hashes) are [Z]; every value the cache computes stays far below
      2^53, so the arithmetic is exact. The 32-bit conversions of the
      bit operators are written out ([to_int32]).
    - [AsyncStorage] is a finite map from string keys to the JSON value
      stored under them; every asynchronous operation is a function from
      the store to the store (and a result).  Operations are modelled on
      their successful path: the store never raises an I/O error.
    - [Date.now()] is an argument of the operation that reads it. *)

From Stdlib Require Import ZArith Lia Ascii String.
From stdpp Require Import base strings list sorting gmap fin_maps pretty.

Local Open Scope Z_scope.

(** ** Data model (CacheManager.ts, NetworkService.ts) *)

Record CacheEntry := mkCacheEntry {
  url : string;
  data : string;
  timestamp : Z;
  expiresAt : Z;
  contentType : string;
  size : Z
}.

(** One record of [index.entries]: [{ url, size, timestamp }]. *)
Record IndexRecord := mkIndexRecord {
  rec_url : string;
  rec_size : Z;
  rec_timestamp : Z
}.

(** The value of [getCacheIndex]: [{ totalSize, entries }]. *)
Record CacheIndex := mkCacheIndex {
  totalSize : Z;
  entries : list IndexRecord
}.

Record NetworkState := mkNetworkState {
  isConnected : bool;
  isInternetReachable : option bool;   (* boolean | null *)
  type : string
}.

(** What [JSON.parse] yields for a value of the store: a cache entry, the
    cache index, or some other document (the first-time-user flag and
    whatever else the application keeps in the shared store). *)
Inductive Item :=
  | ItemEntry (e : CacheEntry)
  | ItemIndex (i : CacheIndex)
  | ItemOther (json : string).

Abbreviation Storage := (gmap string Item).

(** ** StorageService *)

Module StorageService.

Definition FIRST_TIME_USER_KEY : string := "isFirstTimeUser".
Definition CACHE_PREFIX : string := "cache_".

Definition setCacheData (key : string) (v : Item) (st : Storage) : Storage :=
  <[CACHE_PREFIX +:+ key := v]> st.

Definition getCacheData (key : string) (st : Storage) : option Item :=
  st !! (CACHE_PREFIX +:+ key).

Definition removeCacheData (key : string) (st : Storage) : Storage :=
  delete (CACHE_PREFIX +:+ key) st.

(** [key.startsWith(CACHE_PREFIX)] *)
Definition startsWith (key pre : string) : bool := String.prefix pre key.

(** [getAllKeys], [filter], [multiRemove]: every key with the prefix goes. *)
Definition clearAllCacheData (st : Storage) : Storage :=
  filter (λ kv, startsWith kv.1 CACHE_PREFIX = false) st.

Definition setFirstTimeUser (value : bool) (st : Storage) : Storage :=
  <[FIRST_TIME_USER_KEY := ItemOther (if value then "true" else "false")]> st.

(** [isFirstTimeUser()]: [true] without a value, else what [JSON.parse]
    makes of the value.  The two documents [setFirstTimeUser] writes are
    modelled; for any other value the result is left open ([None]). *)
Definition isFirstTimeUser (st : Storage) : option bool :=
  match st !! FIRST_TIME_USER_KEY with
  | None => Some true
  | Some (ItemOther json) =>
      if String.eqb json "true" then Some true
      else if String.eqb json "false" then Some false
      else None
  | Some _ => None
  end.

End StorageService.

(** ** JavaScript primitives used by the cache *)

(** [ToInt32]: the operand conversion of [<<] and [&]. *)
Definition to_int32 (z : Z) : Z := (z + 2^31) mod 2^32 - 2^31.

(** [url.charCodeAt(i)] *)
Definition charCode (c : ascii) : Z := Z.of_N (N_of_ascii c).

(** [contentType.includes(sub)] *)
Fixpoint includes (s sub : string) : bool :=
  if String.prefix sub s then true
  else match s with
       | EmptyString => false
       | String _ s' => includes s' sub
       end.

(** [c.toLowerCase()] for one code unit below 256: the letters A-Z and
    the capital letters of Latin-1 (U+00C0-U+00DE but the multiplication
    sign) move up by 32. *)
Definition toLowerCase_char (c : ascii) : ascii :=
  let n := charCode c in
  if ((65 <=? n) && (n <=? 90)) || ((192 <=? n) && (n <=? 214))
     || ((216 <=? n) && (n <=? 222))
  then ascii_of_N (N_of_ascii c + 32)
  else c.

(** [message.toLowerCase()] *)
Fixpoint toLowerCase (s : string) : string :=
  match s with
  | EmptyString => EmptyString
  | String c s' => String (toLowerCase_char c) (toLowerCase s')
  end.

(** The result of [Math.min] and [Math.max]. *)
Inductive jsnum :=
  | Num (z : Z)
  | Infinity
  | NegInfinity
  | NaN.

(** [Math.min(...xs)]: [Infinity] when there is no argument. *)
Definition Math_min (xs : list Z) : jsnum :=
  foldr (λ x acc, match acc with
                  | Num y => Num (Z.min x y)
                  | Infinity => Num x
                  | other => other
                  end) Infinity xs.

(** [Math.max(...xs)]: [-Infinity] when there is no argument. *)
Definition Math_max (xs : list Z) : jsnum :=
  foldr (λ x acc, match acc with
                  | Num y => Num (Z.max x y)
                  | NegInfinity => Num x
                  | other => other
                  end) NegInfinity xs.

(** [entries.sort((a, b) => a.timestamp - b.timestamp)]: the stable
    ascending sort, as an insertion sort that keeps equal timestamps in
    their original order. *)
Fixpoint insert_by_timestamp (x : IndexRecord) (l : list IndexRecord) : list IndexRecord :=
  match l with
  | [] => [x]
  | y :: l' =>
      if rec_timestamp x <=? rec_timestamp y then x :: y :: l'
      else y :: insert_by_timestamp x l'
  end.

Definition sort_by_timestamp (l : list IndexRecord) : list IndexRecord :=
  foldr insert_by_timestamp [] l.

(** ** CacheManager *)

Module CacheManager.

Import StorageService.

Definition CACHE_INDEX_KEY : string := "cache_index".
Definition MAX_CACHE_SIZE : Z := 50 * 1024 * 1024.
Definition DEFAULT_EXPIRATION : Z := 60 * 60 * 1000.
Definition STATIC_RESOURCE_EXPIRATION : Z := 24 * 60 * 60 * 1000.

(** One round of the loop of [hashUrl]:
    [hash = ((hash << 5) - hash) + char; hash = hash & hash]. *)
Definition hash_step (hash : Z) (c : ascii) : Z :=
  let hash' := (to_int32 (Z.shiftl (to_int32 hash) 5) - hash) + charCode c in
  Z.land (to_int32 hash') (to_int32 hash').

Fixpoint hash_loop (s : string) (hash : Z) : Z :=
  match s with
  | EmptyString => hash
  | String c s' => hash_loop s' (hash_step hash c)
  end.

(** [Math.abs(hash).toString()] *)
Definition hashUrl (u : string) : string := pretty (Z.abs (hash_loop u 0)).

Definition getCacheKey (u : string) : string := "resource_" +:+ hashUrl u.

Definition getExpirationTime (ct : string) : Z :=
  if includes ct "css" || includes ct "javascript" || includes ct "image/"
  then STATIC_RESOURCE_EXPIRATION
  else DEFAULT_EXPIRATION.

(** [getCacheData] at an entry key, typed [CacheEntry | null] by the
    source: a key that holds no value, or a value that is not an entry,
    holds no entry. *)
Definition getEntry (key : string) (st : Storage) : option CacheEntry :=
  match getCacheData key st with
  | Some (ItemEntry e) => Some e
  | _ => None
  end.

(** [getCacheIndex()]: [index || { totalSize: 0, entries: [] }], typed
    as an index by the source. *)
Definition getCacheIndex (st : Storage) : CacheIndex :=
  match getCacheData CACHE_INDEX_KEY st with
  | Some (ItemIndex i) => i
  | _ => mkCacheIndex 0 []
  end.

(** [entries.findIndex(entry => entry.url === url)] and, when it finds a
    record, [entries.splice(i, 1)]: the removed record and the rest. *)
Fixpoint splice_url (u : string) (l : list IndexRecord)
  : option (IndexRecord * list IndexRecord) :=
  match l with
  | [] => None
  | r :: l' =>
      if String.eqb (rec_url r) u then Some (r, l')
      else match splice_url u l' with
           | Some (x, rest) => Some (x, r :: rest)
           | None => None
           end
  end.

Definition updateCacheIndex (now : Z) (u : string) (sz : Z) (st : Storage) : Storage :=
  let index := getCacheIndex st in
  let index :=
    match splice_url u (entries index) with
    | Some (old, rest) => mkCacheIndex (totalSize index - rec_size old) rest
    | None => index
    end in
  let index :=
    mkCacheIndex (totalSize index + sz)
                 (entries index ++ [mkIndexRecord u sz now]) in
  setCacheData CACHE_INDEX_KEY (ItemIndex index) st.

Definition removeFromCacheIndex (u : string) (sz : Z) (st : Storage) : Storage :=
  let index := getCacheIndex st in
  match splice_url u (entries index) with
  | Some (_, rest) =>
      setCacheData CACHE_INDEX_KEY
        (ItemIndex (mkCacheIndex (totalSize index - sz) rest)) st
  | None => st
  end.

(** The [while] loop of [enforceCacheSizeLimit] over the sorted records:
    the records left, the running total and the store. *)
Fixpoint evict (l : list IndexRecord) (total : Z) (st : Storage)
  : list IndexRecord * Z * Storage :=
  match l with
  | [] => ([], total, st)
  | oldestEntry :: rest =>
      if MAX_CACHE_SIZE <? total
      then evict rest (total - rec_size oldestEntry)
                 (removeCacheData (getCacheKey (rec_url oldestEntry)) st)
      else (l, total, st)
  end.

Definition enforceCacheSizeLimit (st : Storage) : Storage :=
  let index := getCacheIndex st in
  if totalSize index <=? MAX_CACHE_SIZE then st
  else
    let '(rest, total, st') :=
      evict (sort_by_timestamp (entries index)) (totalSize index) st in
    setCacheData CACHE_INDEX_KEY (ItemIndex (mkCacheIndex total rest)) st'.

(** The entry [cacheResource] builds; [now] is its [Date.now()]. *)
Definition newEntry (now : Z) (u d ct : string) : CacheEntry :=
  {| url := u;
     data := d;
     timestamp := now;
     expiresAt := now + getExpirationTime ct;
     contentType := ct;
     size := Z.of_nat (String.length d) |}.

(** [cacheResource(url, data, contentType)]. [now] is the clock read
    for the entry, [now_idx] the later read of [updateCacheIndex]. *)
Definition cacheResource (now now_idx : Z) (u d ct : string) (st : Storage) : Storage :=
  let entry := newEntry now u d ct in
  let st := setCacheData (getCacheKey u) (ItemEntry entry) st in
  let st := updateCacheIndex now_idx u (size entry) st in
  enforceCacheSizeLimit st.

Definition removeCachedResource (u : string) (st : Storage) : Storage :=
  match getEntry (getCacheKey u) st with
  | Some entry =>
      let st := removeCacheData (getCacheKey u) st in
      removeFromCacheIndex u (size entry) st
  | None => st
  end.

(** [getCachedResource(url)] read at clock [now]: the result ([None] is
    [null]) and the store after the lazy deletion. *)
Definition getCachedResource (now : Z) (u : string) (st : Storage)
  : option string * Storage :=
  match getEntry (getCacheKey u) st with
  | None => (None, st)
  | Some entry =>
      if expiresAt entry <? now
      then (None, removeCachedResource u st)
      else (Some (data entry), st)
  end.

Definition clearCache (st : Storage) : Storage :=
  removeCacheData CACHE_INDEX_KEY (clearAllCacheData st).

Definition getCacheSize (st : Storage) : Z := totalSize (getCacheIndex st).

Record CacheStats := mkCacheStats {
  stats_totalSize : Z;
  entryCount : nat;
  oldestEntry : jsnum;
  newestEntry : jsnum
}.

Definition getCacheStats (st : Storage) : CacheStats :=
  let index := getCacheIndex st in
  {| stats_totalSize := totalSize index;
     entryCount := length (entries index);
     oldestEntry := Math_min (map rec_timestamp (entries index));
     newestEntry := Math_max (map rec_timestamp (entries index)) |}.

Definition isCached (now : Z) (u : string) (st : Storage) : bool * Storage :=
  let '(cachedData, st') := getCachedResource now u st in
  (bool_decide (cachedData ≠ None), st').

End CacheManager.

Import StorageService CacheManager.

(** ** NetworkService *)

(** What [NetInfo] reports: [isConnected] and [isInternetReachable] may
    be [null]. *)
Record NetInfoState := mkNetInfoState {
  ni_isConnected : option bool;
  ni_isInternetReachable : option bool;
  ni_type : string
}.

Module NetworkService.

(** The [NetworkState] built from a [NetInfo] state, in
    [getNetworkState] and in the listener of [addNetworkListener]:
    [isConnected: state.isConnected ?? false]. *)
Definition toNetworkState (state : NetInfoState) : NetworkState :=
  {| isConnected := default false (ni_isConnected state);
     isInternetReachable := ni_isInternetReachable state;
     type := ni_type state |}.

(** [getNetworkState()], with [fetched] the result of [NetInfo.fetch()]. *)
Definition getNetworkState (fetched : NetInfoState) : NetworkState :=
  toNetworkState fetched.

(** [x !== false] for [x : boolean | null]. *)
Definition not_false (x : option bool) : bool :=
  match x with
  | Some false => false
  | _ => true
  end.

(** [isOnline()] *)
Definition isOnline (fetched : NetInfoState) : bool :=
  let state := getNetworkState fetched in
  isConnected state && not_false (isInternetReachable state).

(** The static [listeners] array and the handlers registered with
    [NetInfo.addEventListener].  A callback is known by its identity (a
    number); every registration with [NetInfo] gets a fresh number and
    carries the callback its handler calls. *)
Record Subscriptions := mkSubscriptions {
  listeners : list nat;
  netInfoHandlers : list (nat * nat);
  nextHandler : nat
}.

(** [listeners.indexOf(callback)] and, when it is found,
    [listeners.splice(index, 1)]. *)
Fixpoint spliceFirst (callback : nat) (l : list nat) : list nat :=
  match l with
  | [] => []
  | c :: l' => if Nat.eqb c callback then l' else c :: spliceFirst callback l'
  end.

(** [addNetworkListener(callback)]: the number of the registration with
    [NetInfo], which is what the returned function remembers, and the
    state after [listeners.push] and [NetInfo.addEventListener]. *)
Definition addNetworkListener (callback : nat) (s : Subscriptions) : nat * Subscriptions :=
  (nextHandler s,
   mkSubscriptions (listeners s ++ [callback])
                   (netInfoHandlers s ++ [(nextHandler s, callback)])
                   (S (nextHandler s))).

(** The function [addNetworkListener(callback)] returns, for the
    registration [handler]. *)
Definition unsubscribeListener (handler callback : nat) (s : Subscriptions) : Subscriptions :=
  mkSubscriptions (spliceFirst callback (listeners s))
                  (filter (λ h, h.1 ≠ handler) (netInfoHandlers s))
                  (nextHandler s).

Definition removeAllListeners (s : Subscriptions) : Subscriptions :=
  mkSubscriptions [] (netInfoHandlers s) (nextHandler s).

(** The callbacks an event of [NetInfo] calls, in order. *)
Definition notified (s : Subscriptions) : list nat := map snd (netInfoHandlers s).

End NetworkService.

(** ** ErrorHandler (ErrorHandler.ts)

    The state of the class is its [errorLog]; the calls of [Alert.alert]
    are recorded, oldest first, as the title and the message shown.  The
    output on the console is not part of the model.  A function that
    throws returns [None]. *)

Module ErrorHandler.

Inductive ErrorType := NETWORK | WEBVIEW | CACHE | STORAGE | UNKNOWN.

(** An [Error], of which only [message] is read. *)
Record JsError := mkJsError { error_message : string }.

Record WebViewError := mkWebViewError {
  wv_domain : string;
  wv_code : Z;
  wv_description : string;
  wv_url : option string
}.

(** ['read' | 'write' | 'delete' | 'clear'] *)
Inductive CacheOperation := OperationRead | OperationWrite | OperationDelete | OperationClear.

Record CacheError := mkCacheError {
  cache_error : JsError;
  operation : CacheOperation;
  cache_key : option string
}.

Record AppError := mkAppError {
  err_type : ErrorType;
  err_message : string;
  err_originalError : option JsError;
  err_timestamp : Z;
  err_context : option string
}.

Record State := mkState {
  errorLog : list AppError;
  alerts : list (string * string)
}.

Definition MAX_ERROR_LOG_SIZE : nat := 100.

Definition isLikelyOffline (error : JsError) : bool :=
  let message := toLowerCase (error_message error) in
  includes message "network" || includes message "offline"
  || includes message "connection" || includes message "timeout"
  || includes message "unreachable".

Definition getNetworkErrorMessage (error : JsError) : string :=
  if isLikelyOffline error then "Device appears to be offline"
  else "Network error: " +:+ error_message error.

Definition getWebViewErrorMessage (error : WebViewError) : string :=
  "WebView error (" +:+ pretty (wv_code error) +:+ "): " +:+ wv_description error.

Definition operation_name (o : CacheOperation) : string :=
  match o with
  | OperationRead => "read"
  | OperationWrite => "write"
  | OperationDelete => "delete"
  | OperationClear => "clear"
  end.

Definition getCacheErrorMessage (error : CacheError) : string :=
  "Cache " +:+ operation_name (operation error) +:+ " error: "
  +:+ error_message (cache_error error).

Definition getStorageErrorMessage (error : JsError) : string :=
  "Storage error: " +:+ error_message error.

(** [logError]: [push], then [shift] when the log is longer than the
    limit. *)
Definition logError (error : AppError) (s : State) : State :=
  let log := errorLog s ++ [error] in
  mkState (if (MAX_ERROR_LOG_SIZE <? length log)%nat then tail log else log)
          (alerts s).

Definition showErrorMessage (message title : string) (s : State) : State :=
  mkState (errorLog s) (alerts s ++ [(title, message)]).

(** [showUserFriendlyError]; [error.originalError!] of a network error
    without an original error throws. *)
Definition showUserFriendlyError (error : AppError) (s : State) : option State :=
  match err_type error with
  | NETWORK =>
      match err_originalError error with
      | Some original =>
          Some (showErrorMessage
                  (if isLikelyOffline original
                   then "Please check your internet connection and try again."
                   else "Unable to load content. Please try again.")
                  "Connection Error" s)
      | None => None
      end
  | WEBVIEW =>
      Some (showErrorMessage "Unable to load the page. Please try again."
              "Loading Error" s)
  | CACHE =>
      Some (showErrorMessage
              "There was an issue with cached content. The app will continue to work normally."
              "Cache Error" s)
  | STORAGE =>
      Some (showErrorMessage
              "Unable to save data. Some features may not work as expected."
              "Storage Error" s)
  | UNKNOWN => Some (showErrorMessage (err_message error) "Error" s)
  end.

Definition handleNetworkError (now : Z) (error : JsError) (context : option string)
    (s : State) : option State :=
  let appError := mkAppError NETWORK (getNetworkErrorMessage error) (Some error) now context in
  showUserFriendlyError appError (logError appError s).

Definition handleWebViewError (now : Z) (error : WebViewError) (context : option string)
    (s : State) : option State :=
  let appError := mkAppError WEBVIEW (getWebViewErrorMessage error) None now context in
  showUserFriendlyError appError (logError appError s).

Definition handleCacheError (now : Z) (error : CacheError) (context : option string)
    (s : State) : option State :=
  let appError :=
    mkAppError CACHE (getCacheErrorMessage error) (Some (cache_error error)) now context in
  let s := logError appError s in
  match operation error with
  | OperationRead => Some s
  | _ => showUserFriendlyError appError s
  end.

Definition handleStorageError (now : Z) (error : JsError) (context : option string)
    (s : State) : option State :=
  let appError := mkAppError STORAGE (getStorageErrorMessage error) (Some error) now context in
  showUserFriendlyError appError (logError appError s).

(** [error.message || 'An unexpected error occurred'] *)
Definition handleUnknownError (now : Z) (error : JsError) (context : option string)
    (s : State) : option State :=
  let message :=
    match error_message error with
    | EmptyString => "An unexpected error occurred"
    | m => m
    end in
  let appError := mkAppError UNKNOWN message (Some error) now context in
  showUserFriendlyError appError (logError appError s).

Definition getErrorLog (s : State) : list AppError := errorLog s.

Definition clearErrorLog (s : State) : State := mkState [] (alerts s).

End ErrorHandler.

(** ** The connectivity effect of PortfolioScreen (portfolio.tsx)

    The screen keeps [isOnline], [showOfflineMessage] and [webViewSource]
    as React state.  Its effect, with dependencies
    [[isOnline, handleOfflineLoad]], checks the connectivity and
    registers a listener that closes over the [isOnline] of the render
    the effect ran for.  React runs the effect again after a render in
    which [isOnline] differs from that render ([handleOfflineLoad] never
    changes); a state setter called with the current value causes no
    render.  The network monitor answers a point-in-time query with the
    state it last reported.  One run of the effect is one step: its
    connectivity check and the cache read it may start are done before
    the next event is looked at. *)

Module PortfolioScreen.

Definition PORTFOLIO_URL : string := "https://umar.is-a.dev/".

(** [{ uri: PORTFOLIO_URL }], or the data URI made of a cached page. *)
Inductive WebViewSource :=
  | SourceUri (uri : string)
  | SourceDataUri (cachedContent : string).

Record Screen := mkScreen {
  isOnline : bool;
  showOfflineMessage : bool;
  webViewSource : WebViewSource
}.

Definition setIsOnline (v : bool) (s : Screen) : Screen :=
  mkScreen v (showOfflineMessage s) (webViewSource s).
Definition setShowOfflineMessage (v : bool) (s : Screen) : Screen :=
  mkScreen (isOnline s) v (webViewSource s).
Definition setWebViewSource (v : WebViewSource) (s : Screen) : Screen :=
  mkScreen (isOnline s) (showOfflineMessage s) v.

(** The screen and what it acts on: the [isOnline] the registered
    listener closed over, the state of the network monitor, the store,
    and the log of the URLs passed to [getCachedResource]. *)
Record World := mkWorld {
  screen : Screen;
  listenerIsOnline : bool;
  monitor : NetInfoState;
  storage : Storage;
  cacheReads : list string
}.

(** The callback given to [addNetworkListener]; [wasOnline] is the
    [isOnline] of its closure. *)
Definition listener (wasOnline : bool) (networkState : NetworkState) (s : Screen) : Screen :=
  let online :=
    isConnected networkState
    && NetworkService.not_false (isInternetReachable networkState) in
  let s := setIsOnline online s in
  if negb online && wasOnline then setShowOfflineMessage true s
  else if online && negb wasOnline
       then setWebViewSource (SourceUri PORTFOLIO_URL) (setShowOfflineMessage false s)
       else s.

(** [if (cachedContent)]: neither [null] nor the empty string. *)
Definition truthy (cachedContent : option string) : option string :=
  match cachedContent with
  | Some EmptyString => None
  | other => other
  end.

Definition handleOfflineLoad (now : Z) (w : World) : World :=
  let '(cachedContent, st) := getCachedResource now PORTFOLIO_URL (storage w) in
  let s :=
    match truthy cachedContent with
    | Some content =>
        setShowOfflineMessage true (setWebViewSource (SourceDataUri content) (screen w))
    | None => setShowOfflineMessage true (screen w)
    end in
  mkWorld s (listenerIsOnline w) (monitor w) st (cacheReads w ++ [PORTFOLIO_URL]).

Definition checkInitialConnectivity (now : Z) (w : World) : World :=
  let online := NetworkService.isOnline (monitor w) in
  let w := mkWorld (setIsOnline online (screen w)) (listenerIsOnline w)
                   (monitor w) (storage w) (cacheReads w) in
  if negb online then handleOfflineLoad now w else w.

(** One run of the effect: the listener is registered anew, closing
    over the current [isOnline], and the connectivity is checked. *)
Definition runEffect (now : Z) (w : World) : World :=
  checkInitialConnectivity now
    (mkWorld (screen w) (isOnline (screen w)) (monitor w) (storage w) (cacheReads w)).

(** The renders that follow a change of state: the effect runs as long
    as [isOnline] is not the one of the render it last ran for. *)
Fixpoint flushEffects (fuel : nat) (now : Z) (w : World) : World :=
  match fuel with
  | O => w
  | S fuel' =>
      if Bool.eqb (isOnline (screen w)) (listenerIsOnline w) then w
      else flushEffects fuel' now (runEffect now w)
  end.

(** The monitor reports [state] and the registered listener runs: the
    state setters have been called, no render has followed yet.  The
    listener is the one registered by the last run of the effect, so an
    event that arrives before the pending render still finds the
    [isOnline] of the earlier render in its closure. *)
Definition deliver (state : NetInfoState) (w : World) : World :=
  mkWorld (listener (listenerIsOnline w) (NetworkService.toNetworkState state) (screen w))
          (listenerIsOnline w) state (storage w) (cacheReads w).

(** The monitor reports [state] and nothing else arrives before the
    renders it caused are done: the registered listener runs, then the
    effect as often as [isOnline] asks for.  Events that follow each
    other faster than the renders are [deliver]s in a row, flushed
    afterwards. *)
Definition connectivityCallback (fuel : nat) (now : Z) (state : NetInfoState) (w : World)
  : World :=
  flushEffects fuel now (deliver state w).


(** The message the injected script posts, once [JSON.parse] has read
    it: [{ type, url, content }]. *)
Record PageMessage := mkPageMessage {
  msg_type : string;
  msg_url : string;
  msg_content : string
}.

(** [handleMessage(event)]; [data] is [None] when [JSON.parse] throws,
    which the handler catches. *)
Definition handleMessage (now now_idx : Z) (data : option PageMessage) (w : World) : World :=
  match data with
  | Some data =>
      if String.eqb (msg_type data) "pageContent" && isOnline (screen w)
      then mkWorld (screen w) (listenerIsOnline w) (monitor w)
             (cacheResource now now_idx (msg_url data) (msg_content data) "text/html"
                (storage w))
             (cacheReads w)
      else w
  | None => w
  end.

End PortfolioScreen.

(** ** The first screens (index.tsx, start screen) *)

(** [checkFirstTimeUserAndNavigate()] of [Index]: the route it replaces
    the screen with. *)
Definition checkFirstTimeUserAndNavigate (st : Storage) : option string :=
  match isFirstTimeUser st with
  | Some true => Some "/start"
  | Some false => Some "/portfolio"
  | None => None
  end.

(** [handleGetStarted()] of [StartScreen]: the store and the route. *)
Definition handleGetStarted (st : Storage) : Storage * string :=
  (setFirstTimeUser false st, "/portfolio").

(** ** Vocabulary of the properties *)

(** The key of the store under which [setCacheData key] writes. *)
Definition storeKey (key : string) : string := CACHE_PREFIX +:+ key.

(** The rolling hash as the key derivation is described, not as
    [hashUrl] computes it: from 0, every code unit [c] of the URL takes
    [h] to [31 * h + c], wrapped to a signed 32-bit integer. *)
Definition rolling_hash (u : string) : Z :=
  fold_left (λ h c, to_int32 (31 * h + charCode c)) (list_ascii_of_string u) 0.

(** Sum of the [size] fields of the records of an index. *)
Definition sum_sizes (l : list IndexRecord) : Z :=
  foldr (λ r acc, rec_size r + acc) 0 l.

(** The invariant the data model asks of the index:
    [totalSize] is the sum of [size] over [entries]. *)
Definition index_consistent (i : CacheIndex) : Prop :=
  totalSize i = sum_sizes (entries i).

(** The order of [timestamp]s the eviction sorts by. *)
Definition older_or_same (a b : IndexRecord) : Prop :=
  rec_timestamp a ≤ rec_timestamp b.

(** The operations that write the store: those of the cache, and the
    write of the first-time-user flag, which shares the store. *)
Inductive Op :=
  | OpCache (now now_idx : Z) (u d ct : string)
  | OpGet (now : Z) (u : string)
  | OpRemove (u : string)
  | OpClear
  | OpSetFirstTimeUser (value : bool).

Definition step (st : Storage) (o : Op) : Storage :=
  match o with
  | OpCache now now_idx u d ct => cacheResource now now_idx u d ct st
  | OpGet now u => (getCachedResource now u st).2
  | OpRemove u => removeCachedResource u st
  | OpClear => clearCache st
  | OpSetFirstTimeUser value => setFirstTimeUser value st
  end.

(** A sequence of operations, the first of the list first. *)
Definition run (ops : list Op) (st : Storage) : Storage := foldl step st ops.

(** The keys of the store the eviction of the records [l] deletes. *)
Definition evicted_keys (l : list IndexRecord) : list string :=
  map (λ r, storeKey (getCacheKey (rec_url r))) l.

(** No stored entry has a negative [size]. *)
Definition sizes_nonneg (st : Storage) : Prop :=
  ∀ k e, st !! k = Some (ItemEntry e) → 0 ≤ size e.

(** A store within the ceiling, with no negative size. *)
Definition within_limit (st : Storage) : Prop :=
  totalSize (getCacheIndex st) ≤ MAX_CACHE_SIZE ∧
  Forall (λ r, 0 ≤ rec_size r) (entries (getCacheIndex st)) ∧
  sizes_nonneg st.

(** ["A".repeat(n)]: the string of [n] copies of a character. *)
Fixpoint String_repeat (c : ascii) (n : nat) : string :=
  match n with
  | O => EmptyString
  | S n' => String c (String_repeat c n')
  end.

(** A document of 50 MiB and one character. *)
Definition oversize_document : string :=
  String_repeat "A"%char (N.to_nat 52428801).

(** The [size] field of a stored value that is a cache entry. *)
Definition item_size (it : Item) : Z :=
  match it with
  | ItemEntry e => size e
  | _ => 0
  end.

(** Sum of the [size] fields of all the entries in the store. *)
Definition stored_sum (st : Storage) : Z :=
  map_fold (λ _ it acc, item_size it + acc) 0 st.

(** Sum of the [size] fields of the entries in the store that a read at
    clock [now] returns. *)
Definition retrievable_sum (now : Z) (st : Storage) : Z :=
  map_fold (λ _ it acc,
              match it with
              | ItemEntry e =>
                  if (isCached now (url e) st).1 then size e + acc else acc
              | _ => acc
              end) 0 st.

(** The URLs a sequence of operations names. *)
Definition op_urls (o : Op) : list string :=
  match o with
  | OpCache _ _ u _ _ | OpGet _ u | OpRemove u => [u]
  | OpClear | OpSetFirstTimeUser _ => []
  end.

Definition ops_urls (ops : list Op) : list string := concat (map op_urls ops).

(** A history on two URLs that share a storage key: both are cached,
    the first is removed, the second is cached again and removed. *)
Definition collision_history : list Op :=
  [OpCache 0 0 "https://x/Aa" "aaaa" "text/html";
   OpCache 1 1 "https://x/BB" "bb" "text/html";
   OpRemove "https://x/Aa";
   OpCache 2 2 "https://x/BB" "bb" "text/html";
   OpRemove "https://x/BB"].

(** No two URLs of the list share a storage key. *)
Definition collision_free (urls : list string) : Prop :=
  ∀ u1 u2, u1 ∈ urls → u2 ∈ urls → getCacheKey u1 = getCacheKey u2 → u1 = u2.

(** A record of the index backed by the entry stored for its URL. *)
Definition backed (st : Storage) (r : IndexRecord) : Prop :=
  ∃ e, getEntry (getCacheKey (rec_url r)) st = Some e ∧
       url e = rec_url r ∧ size e = rec_size r.

(** The index and the entries of the store account for each other: one
    record per URL, each backed by its entry, each entry stored under the
    key of its URL with a record, and the total the sum of the entries. *)
Record accounted (urls : list string) (st : Storage) : Prop := {
  acc_nodup : NoDup (map rec_url (entries (getCacheIndex st)));
  acc_urls : ∀ r, r ∈ entries (getCacheIndex st) → rec_url r ∈ urls;
  acc_backed : ∀ r, r ∈ entries (getCacheIndex st) → backed st r;
  acc_indexed : ∀ k e, st !! k = Some (ItemEntry e) →
      k = storeKey (getCacheKey (url e)) ∧
      ∃ r, r ∈ entries (getCacheIndex st) ∧ rec_url r = url e;
  acc_total : totalSize (getCacheIndex st) = stored_sum st;
  acc_consistent : index_consistent (getCacheIndex st)
}.

(** A call of one of the handlers of [ErrorHandler], with the clock it
    reads. *)
Inductive ErrorCall :=
  | CallNetwork (now : Z) (error : ErrorHandler.JsError) (context : option string)
  | CallWebView (now : Z) (error : ErrorHandler.WebViewError) (context : option string)
  | CallCache (now : Z) (error : ErrorHandler.CacheError) (context : option string)
  | CallStorage (now : Z) (error : ErrorHandler.JsError) (context : option string)
  | CallUnknown (now : Z) (error : ErrorHandler.JsError) (context : option string).

Definition handleCall (c : ErrorCall) (s : ErrorHandler.State) : option ErrorHandler.State :=
  match c with
  | CallNetwork now error context => ErrorHandler.handleNetworkError now error context s
  | CallWebView now error context => ErrorHandler.handleWebViewError now error context s
  | CallCache now error context => ErrorHandler.handleCacheError now error context s
  | CallStorage now error context => ErrorHandler.handleStorageError now error context s
  | CallUnknown now error context => ErrorHandler.handleUnknownError now error context s
  end.

(** The calls one after the other; a call that throws ends them. *)
Definition handleCalls (cs : list ErrorCall) (s : ErrorHandler.State)
  : option ErrorHandler.State :=
  foldl (λ os c, match os with Some s => handleCall c s | None => None end) (Some s) cs.

(** The type and the clock of the error a call reports. *)
Definition call_type (c : ErrorCall) : ErrorHandler.ErrorType :=
  match c with
  | CallNetwork _ _ _ => ErrorHandler.NETWORK
  | CallWebView _ _ _ => ErrorHandler.WEBVIEW
  | CallCache _ _ _ => ErrorHandler.CACHE
  | CallStorage _ _ _ => ErrorHandler.STORAGE
  | CallUnknown _ _ _ => ErrorHandler.UNKNOWN
  end.

Definition call_clock (c : ErrorCall) : Z :=
  match c with
  | CallNetwork now _ _ | CallWebView now _ _ | CallCache now _ _
  | CallStorage now _ _ | CallUnknown now _ _ => now
  end.

(** The titles and messages the handlers of typed errors can show. *)
Definition fixed_alerts : list (string * string) :=
  [("Connection Error", "Please check your internet connection and try again.");
   ("Connection Error", "Unable to load content. Please try again.");
   ("Loading Error", "Unable to load the page. Please try again.");
   ("Cache Error",
    "There was an issue with cached content. The app will continue to work normally.");
   ("Storage Error", "Unable to save data. Some features may not work as expected.")].

(** The words [isLikelyOffline] looks for. *)
Definition offline_words : list string :=
  ["network"; "offline"; "connection"; "timeout"; "unreachable"].

(** An operation that only reads or removes a URL: it writes no
    document and clears nothing. *)
Definition reads_or_removes (o : Op) : Prop :=
  match o with
  | OpGet _ _ | OpRemove _ => True
  | _ => False
  end.

(** An operation of the cache: any but the write of the flag. *)
Definition cache_op (o : Op) : Prop :=
  match o with
  | OpSetFirstTimeUser _ => False
  | _ => True
  end.

(** * Properties *)

(** ** Keys of the store *)

Section Keys.

Lemma storeKey_inj k1 k2 : storeKey k1 = storeKey k2 → k1 = k2.
Proof. unfold storeKey. apply (inj (String.app CACHE_PREFIX)). Qed.

Lemma storeKey_startsWith k : startsWith (CACHE_PREFIX +:+ k) CACHE_PREFIX = true.
Proof. unfold startsWith. simpl. by destruct k. Qed.

Lemma getCacheKey_not_index u : getCacheKey u ≠ CACHE_INDEX_KEY.
Proof. unfold getCacheKey, CACHE_INDEX_KEY. simpl. discriminate. Qed.

Lemma storeKey_entry_not_index u : storeKey (getCacheKey u) ≠ storeKey CACHE_INDEX_KEY.
Proof. intros H. by apply storeKey_inj, getCacheKey_not_index in H. Qed.

Lemma first_time_key_not_cache k : FIRST_TIME_USER_KEY ≠ CACHE_PREFIX +:+ k.
Proof. unfold FIRST_TIME_USER_KEY, CACHE_PREFIX. simpl. discriminate. Qed.

End Keys.

(** ** The 32-bit hash *)

Section Hash.

Lemma to_int32_range z : - 2^31 ≤ to_int32 z < 2^31.
Proof.
  unfold to_int32.
  pose proof (Z.mod_pos_bound (z + 2^31) (2^32) ltac:(lia)). lia.
Qed.

Lemma hash_step_int32 h c : hash_step h c = to_int32 (to_int32 (Z.shiftl (to_int32 h) 5) - h + charCode c).
Proof. unfold hash_step. cbv zeta. apply Z.land_diag. Qed.

(** The shift, the subtraction and the [&] of one round are the
    multiplication by 31, wrapped. *)
Lemma to_int32_mod a b : a mod 2^32 = b mod 2^32 → to_int32 a = to_int32 b.
Proof.
  intros H. unfold to_int32.
  rewrite <-(Zplus_mod_idemp_l a), <-(Zplus_mod_idemp_l b), H. reflexivity.
Qed.

Lemma to_int32_mod_eq a : to_int32 a mod 2^32 = a mod 2^32.
Proof.
  unfold to_int32.
  rewrite <-Zminus_mod_idemp_l, Z.mod_mod by lia.
  rewrite Zminus_mod_idemp_l. f_equal. lia.
Qed.

Lemma hash_step_31 h c : hash_step h c = to_int32 (31 * h + charCode c).
Proof.
  rewrite hash_step_int32. apply to_int32_mod.
  rewrite Z.shiftl_mul_pow2 by lia.
  rewrite <-Zplus_mod_idemp_l, <-Zminus_mod_idemp_l, to_int32_mod_eq.
  rewrite <-Zmult_mod_idemp_l, to_int32_mod_eq, Zmult_mod_idemp_l.
  rewrite Zminus_mod_idemp_l, Zplus_mod_idemp_l. f_equal. lia.
Qed.

Lemma hash_loop_fold s h :
  hash_loop s h
  = fold_left (λ h c, to_int32 (31 * h + charCode c)) (list_ascii_of_string s) h.
Proof.
  revert h. induction s as [|c s IH]; intros h; simpl; [done|].
  by rewrite IH, hash_step_31.
Qed.

Lemma hash_loop_rolling u : hash_loop u 0 = rolling_hash u.
Proof. apply hash_loop_fold. Qed.

(** The hash of a URL with one more code unit at its end. *)
Lemma hash_loop_snoc s c h :
  hash_loop (s +:+ String c "") h = to_int32 (31 * hash_loop s h + charCode c).
Proof.
  revert h. induction s as [|a s IH]; intros h.
  - change (hash_loop ("" +:+ String c "") h) with (hash_step h c).
    apply hash_step_31.
  - change (hash_loop (String a s +:+ String c "") h)
      with (hash_loop (s +:+ String c "") (hash_step h a)).
    by rewrite IH.
Qed.

Lemma hash_loop_range s h :
  - 2^31 ≤ h < 2^31 → - 2^31 ≤ hash_loop s h < 2^31.
Proof.
  revert h. induction s as [|c s IH]; intros h Hh; simpl; [done|].
  apply IH. rewrite hash_step_int32. apply to_int32_range.
Qed.

Lemma collision_free_Forall urls :
  Forall (λ u1, Forall (λ u2, getCacheKey u1 = getCacheKey u2 → u1 = u2) urls) urls →
  collision_free urls.
Proof.
  intros H u1 u2 H1 H2.
  by apply (proj1 (Forall_forall _ _) (proj1 (Forall_forall _ _) H u1 H1) u2).
Qed.

Lemma getCacheKey_eq u1 u2 :
  getCacheKey u1 = getCacheKey u2 ↔ Z.abs (hash_loop u1 0) = Z.abs (hash_loop u2 0).
Proof.
  unfold getCacheKey, hashUrl. split.
  - intros H. apply (inj (String.app "resource_")) in H.
    by apply (inj pretty) in H.
  - by intros ->.
Qed.

End Hash.

(** ** Reading the store after a write *)

Section StoreLemmas.

Implicit Types (st : Storage) (u k : string).

Lemma getCacheIndex_set_index i st :
  getCacheIndex (setCacheData CACHE_INDEX_KEY (ItemIndex i) st) = i.
Proof. unfold getCacheIndex, getCacheData, setCacheData. by rewrite lookup_insert_eq. Qed.

Lemma getCacheIndex_set_entry u v st :
  getCacheIndex (setCacheData (getCacheKey u) v st) = getCacheIndex st.
Proof.
  unfold getCacheIndex, getCacheData, setCacheData.
  rewrite lookup_insert_ne; [done|apply storeKey_entry_not_index].
Qed.

Lemma getCacheIndex_remove_entry u st :
  getCacheIndex (removeCacheData (getCacheKey u) st) = getCacheIndex st.
Proof.
  unfold getCacheIndex, getCacheData, removeCacheData.
  rewrite lookup_delete_ne; [done|apply storeKey_entry_not_index].
Qed.

Lemma getEntry_set_index u i st :
  getEntry (getCacheKey u) (setCacheData CACHE_INDEX_KEY i st) = getEntry (getCacheKey u) st.
Proof.
  unfold getEntry, getCacheData, setCacheData.
  rewrite lookup_insert_ne; [done|]. intros H. symmetry in H.
  by apply storeKey_entry_not_index in H.
Qed.

Lemma getEntry_set_eq k e st : getEntry k (setCacheData k (ItemEntry e) st) = Some e.
Proof. unfold getEntry, getCacheData, setCacheData. by rewrite lookup_insert_eq. Qed.

Lemma getEntry_set_ne k k' v st :
  k ≠ k' → getEntry k' (setCacheData k v st) = getEntry k' st.
Proof.
  intros Hne. unfold getEntry, getCacheData, setCacheData.
  rewrite lookup_insert_ne; [done|]. intros H. by apply storeKey_inj in H.
Qed.

Lemma getEntry_remove_eq k st : getEntry k (removeCacheData k st) = None.
Proof. unfold getEntry, getCacheData, removeCacheData. by rewrite lookup_delete_eq. Qed.

Lemma getEntry_remove_ne k k' st :
  k ≠ k' → getEntry k' (removeCacheData k st) = getEntry k' st.
Proof.
  intros Hne. unfold getEntry, getCacheData, removeCacheData.
  rewrite lookup_delete_ne; [done|]. intros H. by apply storeKey_inj in H.
Qed.

Lemma getCacheIndex_setFirstTimeUser b st :
  getCacheIndex (setFirstTimeUser b st) = getCacheIndex st.
Proof.
  unfold getCacheIndex, getCacheData, setFirstTimeUser.
  rewrite lookup_insert_ne; [done|apply first_time_key_not_cache].
Qed.

Lemma getEntry_setFirstTimeUser k b st :
  getEntry k (setFirstTimeUser b st) = getEntry k st.
Proof.
  unfold getEntry, getCacheData, setFirstTimeUser.
  rewrite lookup_insert_ne; [done|apply first_time_key_not_cache].
Qed.

(** What [clearAllCacheData] leaves. *)
Lemma clearAllCacheData_lookup st k :
  clearAllCacheData st !! k = if startsWith k CACHE_PREFIX then None else st !! k.
Proof.
  unfold clearAllCacheData.
  destruct (startsWith k CACHE_PREFIX) eqn:Hk.
  - apply map_lookup_filter_None. right. intros x _. simpl. by rewrite Hk.
  - destruct (st !! k) as [x|] eqn:Hx.
    + apply map_lookup_filter_Some. by split.
    + apply map_lookup_filter_None. by left.
Qed.

Lemma clearCache_lookup st k :
  clearCache st !! k = if startsWith k CACHE_PREFIX then None else st !! k.
Proof.
  unfold clearCache, removeCacheData.
  destruct (decide (CACHE_PREFIX +:+ CACHE_INDEX_KEY = k)) as [<-|Hne].
  - by rewrite lookup_delete_eq.
  - by rewrite lookup_delete_ne, clearAllCacheData_lookup.
Qed.

End StoreLemmas.

(** ** The index as a list *)

Section IndexLemmas.

Implicit Types (l : list IndexRecord) (r : IndexRecord) (u : string).

Lemma sum_sizes_app l1 l2 : sum_sizes (l1 ++ l2) = sum_sizes l1 + sum_sizes l2.
Proof. induction l1 as [|r l1 IH]; simpl; lia. Qed.

Lemma splice_url_None u l :
  splice_url u l = None ↔ Forall (λ r, rec_url r ≠ u) l.
Proof.
  induction l as [|r l IH]; simpl.
  - split; [constructor|done].
  - destruct (String.eqb_spec (rec_url r) u) as [Heq|Hne].
    + split; [done|]. intros H. by inversion H.
    + destruct (splice_url u l) as [[x rest]|].
      * split; [done|]. intros H. inversion H as [|? ? ? Hl]; subst.
        by apply IH in Hl.
      * split; [|done]. intros _. constructor; [done|]. by apply IH.
Qed.

(** [splice_url] takes out the first record of the URL. *)
Lemma splice_url_Some u l r rest :
  splice_url u l = Some (r, rest) →
  rec_url r = u ∧
  ∃ l1 l2, l = l1 ++ r :: l2 ∧ rest = l1 ++ l2 ∧ Forall (λ x, rec_url x ≠ u) l1.
Proof.
  revert r rest. induction l as [|y l IH]; intros r rest; simpl; [done|].
  destruct (String.eqb_spec (rec_url y) u) as [Heq|Hne].
  - intros [= <- <-]. split; [done|]. by exists [], l.
  - destruct (splice_url u l) as [[x rest']|]; [|done].
    intros [= <- <-]. destruct (IH x rest' eq_refl) as (Hx & l1 & l2 & -> & -> & Hl1).
    split; [done|]. exists (y :: l1), l2. repeat split; by constructor.
Qed.

Lemma splice_url_sum u l r rest :
  splice_url u l = Some (r, rest) → sum_sizes l = rec_size r + sum_sizes rest.
Proof.
  intros (_ & l1 & l2 & -> & -> & _)%splice_url_Some.
  rewrite !sum_sizes_app. simpl. lia.
Qed.

Lemma splice_url_length u l r rest :
  splice_url u l = Some (r, rest) → length l = S (length rest).
Proof.
  intros (_ & l1 & l2 & -> & -> & _)%splice_url_Some.
  rewrite !length_app. simpl. lia.
Qed.

Lemma splice_url_subset u l r rest x :
  splice_url u l = Some (r, rest) → x ∈ rest → x ∈ l.
Proof.
  intros (_ & l1 & l2 & -> & -> & _)%splice_url_Some.
  rewrite !elem_of_app, elem_of_cons. tauto.
Qed.

Lemma splice_url_NoDup u l r rest :
  splice_url u l = Some (r, rest) →
  NoDup (map rec_url l) →
  NoDup (map rec_url rest) ∧ Forall (λ x, rec_url x ≠ u) rest.
Proof.
  intros (Hr & l1 & l2 & -> & -> & Hl1)%splice_url_Some.
  rewrite !map_app. simpl. rewrite !NoDup_app, NoDup_cons.
  intros (Hn1 & Hd & Hnr & Hn2). split.
  - repeat split; [done| |done]. intros x Hx Hx2. apply (Hd x Hx). by right.
  - apply Forall_app. split; [done|].
    apply Forall_forall. intros x Hx Heq. apply Hnr.
    rewrite Hr, <-Heq. apply list_elem_of_fmap. by exists x.
Qed.

End IndexLemmas.

(** ** Key derivation *)

Example hashUrl_Aa : hashUrl "Aa" = "2112".
Proof. reflexivity. Qed.

Example hashUrl_BB : hashUrl "BB" = "2112".
Proof. reflexivity. Qed.

Example getCacheKey_portfolio :
  getCacheKey PortfolioScreen.PORTFOLIO_URL = "resource_486996948".
Proof. vm_compute. reflexivity. Qed.

(** Two URLs with one key share one slot of the store: the page cached
    for the first is what a read of the second returns. *)
Example collision_serves_other_page :
  (getCachedResource 0 "https://x/BB"
     (cacheResource 0 0 "https://x/Aa" "<html>Aa</html>" "text/html" ∅)).1
  = Some "<html>Aa</html>".
Proof. vm_compute. reflexivity. Qed.

(** C6, as stated, fails: [getCacheKey] is not injective. The URLs
    [https://x/Aa] and [https://x/BB] are distinct and both get the key
    [resource_542503046]. *)
Lemma getCacheKey_collision :
  ¬ (∀ u1 u2 : string, u1 ≠ u2 → getCacheKey u1 ≠ getCacheKey u2).
Proof.
  intros H. apply (H "https://x/Aa" "https://x/BB"); [discriminate|].
  vm_compute. reflexivity.
Qed.

(** C6, amended: the key derivation is deterministic.  The loop of
    [hashUrl] computes the 32-bit rolling hash [h = 31 * h + charCode]
    (wrapped to int32, from 0); the key of a URL is the tag [resource_]
    followed by the decimal writing of the absolute value of that hash,
    a number between 0 and 2^31; two URLs get the same key exactly when
    their hashes agree up to the sign, so distinct URLs can share a key:
    [https://x/Aa] and [https://x/BB] both get [resource_542503046]. *)
Theorem getCacheKey_hash (u1 u2 : string) :
  hash_loop "" 0 = 0 ∧
  (∀ s c, hash_loop (s +:+ String c "") 0
          = to_int32 (31 * hash_loop s 0 + charCode c)) ∧
  hash_loop u1 0 = rolling_hash u1 ∧
  getCacheKey u1 = "resource_" +:+ pretty (Z.abs (rolling_hash u1)) ∧
  0 ≤ Z.abs (rolling_hash u1) ≤ 2^31 ∧
  (getCacheKey u1 = getCacheKey u2 ↔
   Z.abs (rolling_hash u1) = Z.abs (rolling_hash u2)) ∧
  getCacheKey "https://x/Aa" = "resource_542503046" ∧
  getCacheKey "https://x/BB" = "resource_542503046".
Proof.
  split; [done|]. split; [intros s c; apply hash_loop_snoc|].
  rewrite <-!hash_loop_rolling.
  split; [done|]. split; [done|]. split.
  { pose proof (hash_loop_range u1 0 ltac:(lia)). lia. }
  split; [apply getCacheKey_eq|].
  split; vm_compute; reflexivity.
Qed.

(** ** Clearing *)

(** C9: after [clearCache] no URL is retrievable, the reported size is 0,
    and every key of the store that does not start with the cache prefix
    holds what it held. *)
Theorem clearCache_frame (st : Storage) :
  (∀ now u, (getCachedResource now u (clearCache st)).1 = None) ∧
  getCacheSize (clearCache st) = 0 ∧
  (∀ k, startsWith k CACHE_PREFIX = false → clearCache st !! k = st !! k).
Proof.
  repeat split.
  - intros now u. unfold getCachedResource, getEntry, getCacheData.
    rewrite clearCache_lookup.
    by rewrite (storeKey_startsWith (getCacheKey u)).
  - unfold getCacheSize, getCacheIndex, getCacheData.
    rewrite clearCache_lookup.
    by rewrite (storeKey_startsWith CACHE_INDEX_KEY).
  - intros k Hk. by rewrite clearCache_lookup, Hk.
Qed.

Lemma clearCache_frame_witness :
  let st := setFirstTimeUser false
              (cacheResource 0 0 "https://x/a" "AAAAAAAAAA" "text/html" ∅) in
  (getCachedResource 0 "https://x/a" (clearCache st)).1 = None ∧
  getCacheSize (clearCache st) = 0 ∧
  clearCache st !! FIRST_TIME_USER_KEY = Some (ItemOther "false").
Proof.
  intros st. destruct (clearCache_frame st) as (Hget & Hsize & Hframe).
  split; [apply Hget|]. split; [exact Hsize|].
  rewrite Hframe; reflexivity.
Defined.

(** The first-time-user flag survives [clearCache]. *)
Lemma clearCache_keeps_first_time_flag (st : Storage) :
  clearCache st !! FIRST_TIME_USER_KEY = st !! FIRST_TIME_USER_KEY.
Proof. by rewrite clearCache_lookup. Qed.

(** ** Lazy expiry *)

(** C5: reading a URL whose stored entry has expired returns [null] and
    deletes the entry and the record of the URL in the index, so that
    [getCacheStats] counts one entry less and the total without the size
    of the entry; without a record for the URL the index is untouched.
    No other key of the store changes. *)
Theorem getCachedResource_expired (now : Z) (u : string) (st : Storage) (e : CacheEntry) :
  getEntry (getCacheKey u) st = Some e →
  expiresAt e < now →
  let st' := (getCachedResource now u st).2 in
  (getCachedResource now u st).1 = None ∧
  st' !! storeKey (getCacheKey u) = None ∧
  ((∃ r, r ∈ entries (getCacheIndex st) ∧ rec_url r = u) →
   S (entryCount (getCacheStats st')) = entryCount (getCacheStats st) ∧
   stats_totalSize (getCacheStats st') = stats_totalSize (getCacheStats st) - size e) ∧
  ((∀ r, r ∈ entries (getCacheIndex st) → rec_url r ≠ u) →
   getCacheIndex st' = getCacheIndex st) ∧
  (NoDup (map rec_url (entries (getCacheIndex st))) →
   ∀ r, r ∈ entries (getCacheIndex st') → rec_url r ≠ u) ∧
  (∀ k, k ≠ storeKey (getCacheKey u) → k ≠ storeKey CACHE_INDEX_KEY →
        st' !! k = st !! k).
Proof.
  intros He Hexp. unfold getCachedResource. rewrite He.
  destruct (Z.ltb_spec (expiresAt e) now) as [_|?]; [|lia].
  cbn [fst snd]. unfold removeCachedResource. rewrite He.
  unfold removeFromCacheIndex. rewrite getCacheIndex_remove_entry.
  destruct (splice_url u (entries (getCacheIndex st))) as [[r rest]|] eqn:Hs.
  - split; [done|]. split.
    { unfold setCacheData, removeCacheData, storeKey.
      rewrite lookup_insert_ne by (symmetry; apply storeKey_entry_not_index).
      apply lookup_delete_eq. }
    split.
    { intros _. unfold getCacheStats. rewrite getCacheIndex_set_index. cbn.
      by rewrite (splice_url_length _ _ _ _ Hs). }
    split.
    { intros Hno. apply splice_url_Some in Hs as (Hr & l1 & l2 & Hl & _).
      destruct (Hno r); [|done]. rewrite Hl, elem_of_app, elem_of_cons. auto. }
    split.
    { intros Hnd r' Hr'. rewrite getCacheIndex_set_index in Hr'. cbn in Hr'.
      destruct (splice_url_NoDup _ _ _ _ Hs Hnd) as [_ Hall].
      by apply (proj1 (Forall_forall _ _) Hall). }
    intros k Hk Hi. unfold setCacheData, removeCacheData.
    rewrite lookup_insert_ne by done. by rewrite lookup_delete_ne.
  - apply splice_url_None in Hs. split; [done|]. split.
    { apply lookup_delete_eq. }
    split.
    { intros (r & Hr & Hu). by destruct (proj1 (Forall_forall _ _) Hs r Hr). }
    split.
    { intros _. apply getCacheIndex_remove_entry. }
    split.
    { intros _ r Hr. rewrite getCacheIndex_remove_entry in Hr.
      by apply (proj1 (Forall_forall _ _) Hs). }
    intros k Hk _. unfold removeCacheData. by rewrite lookup_delete_ne.
Qed.

Lemma getCachedResource_expired_witness :
  let st := cacheResource 0 0 "https://x/a" "AAAAAAAAAA" "text/html" ∅ in
  (getCachedResource 3600001 "https://x/a" st).1 = None ∧
  (getCachedResource 3600001 "https://x/a" st).2 !! storeKey (getCacheKey "https://x/a") = None.
Proof.
  intros st.
  destruct (getCachedResource_expired 3600001 "https://x/a" st
              (newEntry 0 "https://x/a" "AAAAAAAAAA" "text/html"))
    as (H1 & H2 & _).
  - vm_compute. reflexivity.
  - vm_compute. reflexivity.
  - split; [exact H1|exact H2].
Defined.

(** ** Expiration windows *)

Section Expiration.

(** The loop of the eviction only deletes entries. *)
Lemma evict_getEntry l total st k :
  getEntry k (evict l total st).2 = getEntry k st ∨
  getEntry k (evict l total st).2 = None.
Proof.
  revert total st. induction l as [|r l IH]; intros total st; simpl; [by left|].
  destruct (MAX_CACHE_SIZE <? total); [|by left].
  destruct (IH (total - rec_size r) (removeCacheData (getCacheKey (rec_url r)) st))
    as [->| ->]; [|by right].
  destruct (decide (getCacheKey (rec_url r) = k)) as [<-|Hne].
  - right. apply getEntry_remove_eq.
  - left. by apply getEntry_remove_ne.
Qed.

Lemma enforceCacheSizeLimit_getEntry st u :
  getEntry (getCacheKey u) (enforceCacheSizeLimit st) = getEntry (getCacheKey u) st ∨
  getEntry (getCacheKey u) (enforceCacheSizeLimit st) = None.
Proof.
  unfold enforceCacheSizeLimit.
  destruct (totalSize (getCacheIndex st) <=? MAX_CACHE_SIZE); [by left|].
  pose proof (evict_getEntry (sort_by_timestamp (entries (getCacheIndex st)))
                (totalSize (getCacheIndex st)) st (getCacheKey u)) as H.
  destruct (evict _ _ _) as [[rest total] st'].
  rewrite getEntry_set_index. exact H.
Qed.

Lemma cacheResource_getEntry now now_idx u d ct st :
  getEntry (getCacheKey u) (cacheResource now now_idx u d ct st)
    = Some (newEntry now u d ct) ∨
  getEntry (getCacheKey u) (cacheResource now now_idx u d ct st) = None.
Proof.
  unfold cacheResource.
  destruct (enforceCacheSizeLimit_getEntry
              (updateCacheIndex now_idx u (size (newEntry now u d ct))
                 (setCacheData (getCacheKey u) (ItemEntry (newEntry now u d ct)) st)) u)
    as [H|H]; [left|by right].
  rewrite H. unfold updateCacheIndex. rewrite getEntry_set_index.
  apply getEntry_set_eq.
Qed.

End Expiration.

(** C4: the entry [cacheResource] writes at clock [now] expires at
    [now] + 24 hours when the content type contains [css], [javascript]
    or [image/], and at [now] + 1 hour otherwise, and an entry found
    under the key of the URL after the call is that entry.  An HTML and a
    CSS document cached in this order make two entries; one hour and one
    millisecond after the second write the HTML document reads as [null]
    and the CSS document is still returned. *)
Theorem expiration_policy :
  (∀ now now_idx u d ct st,
     expiresAt (newEntry now u d ct)
       = now + (if includes ct "css" || includes ct "javascript" || includes ct "image/"
                then 24 * 60 * 60 * 1000 else 60 * 60 * 1000) ∧
     (getEntry (getCacheKey u) (cacheResource now now_idx u d ct st)
        = Some (newEntry now u d ct) ∨
      getEntry (getCacheKey u) (cacheResource now now_idx u d ct st) = None)) ∧
  (∀ t0 t0' t1 t1',
     t0 ≤ t1 →
     let st := cacheResource t1 t1' "https://x/b" "BBBBBBBBBB" "text/css"
                 (cacheResource t0 t0' "https://x/a" "AAAAAAAAAA" "text/html" ∅) in
     let now := t1 + (60 * 60 * 1000 + 1) in
     let ra := getCachedResource now "https://x/a" st in
     let rb := getCachedResource now "https://x/b" ra.2 in
     entryCount (getCacheStats st) = 2%nat ∧
     ra.1 = None ∧
     rb.1 = Some "BBBBBBBBBB").
Proof.
  split.
  - intros now now_idx u d ct st. split; [|apply cacheResource_getEntry].
    reflexivity.
  - intros t0 t0' t1 t1' Hle st now ra rb.
    assert (getEntry (getCacheKey "https://x/a") st
            = Some (newEntry t0 "https://x/a" "AAAAAAAAAA" "text/html")) as Ha
      by (vm_compute; reflexivity).
    assert (getEntry (getCacheKey "https://x/b") (removeCachedResource "https://x/a" st)
            = Some (newEntry t1 "https://x/b" "BBBBBBBBBB" "text/css")) as Hb
      by (vm_compute; reflexivity).
    assert (getExpirationTime "text/html" = 3600000) as Hhtml
      by (vm_compute; reflexivity).
    assert (getExpirationTime "text/css" = 86400000) as Hcss
      by (vm_compute; reflexivity).
    assert (ra = (None, removeCachedResource "https://x/a" st)) as Hra.
    { subst ra. unfold getCachedResource. rewrite Ha.
      cbn [newEntry expiresAt]. rewrite Hhtml.
      destruct (Z.ltb_spec (t0 + 3600000) now); [reflexivity|subst now; lia]. }
    assert (rb = (Some "BBBBBBBBBB", removeCachedResource "https://x/a" st)) as Hrb.
    { subst rb. rewrite Hra. cbn [snd]. unfold getCachedResource. rewrite Hb.
      cbn [newEntry expiresAt data]. rewrite Hcss.
      destruct (Z.ltb_spec (t1 + 86400000) now); [subst now; lia|reflexivity]. }
    split; [vm_compute; reflexivity|].
    rewrite Hra, Hrb. split; reflexivity.
Qed.

Lemma expiration_policy_witness :
  let st := cacheResource 5 5 "https://x/b" "BBBBBBBBBB" "text/css"
              (cacheResource 0 0 "https://x/a" "AAAAAAAAAA" "text/html" ∅) in
  (getCachedResource 3600006 "https://x/a" st).1 = None ∧
  (getCachedResource 3600006 "https://x/b"
     (getCachedResource 3600006 "https://x/a" st).2).1 = Some "BBBBBBBBBB".
Proof.
  intros st.
  destruct expiration_policy as [_ H].
  destruct (H 0 0 5 5) as (_ & Ha & Hb); [lia|].
  split; [exact Ha|exact Hb].
Defined.

(** ** The sort and the loop of the eviction *)

Section Eviction.

Implicit Types (l : list IndexRecord) (r x : IndexRecord) (st : Storage).

Lemma insert_by_timestamp_perm x l : insert_by_timestamp x l ≡ₚ x :: l.
Proof.
  induction l as [|y l IH]; simpl; [done|].
  destruct (rec_timestamp x <=? rec_timestamp y); [done|].
  rewrite IH. apply Permutation_swap.
Qed.

Lemma sort_by_timestamp_perm l : sort_by_timestamp l ≡ₚ l.
Proof.
  induction l as [|x l IH]; simpl; [done|].
  fold (sort_by_timestamp l). by rewrite insert_by_timestamp_perm, IH.
Qed.

Lemma insert_by_timestamp_sorted x l :
  StronglySorted older_or_same l →
  StronglySorted older_or_same (insert_by_timestamp x l).
Proof.
  induction l as [|y l IH]; simpl; intros Hs.
  - repeat constructor.
  - apply StronglySorted_cons in Hs as [Hy Hl].
    destruct (Z.leb_spec (rec_timestamp x) (rec_timestamp y)) as [Hle|Hgt].
    + apply StronglySorted_cons. split; [|by apply StronglySorted_cons].
      constructor; [done|].
      eapply Forall_impl; [exact Hy|]. unfold older_or_same. intros; lia.
    + apply StronglySorted_cons. split; [|by apply IH].
      rewrite insert_by_timestamp_perm. constructor; [|done].
      unfold older_or_same. lia.
Qed.

Lemma sort_by_timestamp_sorted l : StronglySorted older_or_same (sort_by_timestamp l).
Proof.
  induction l as [|x l IH]; simpl; [constructor|].
  by apply insert_by_timestamp_sorted.
Qed.

(** The sort is stable: records of one timestamp keep their order. *)
Lemma insert_by_timestamp_stable t x l :
  filter (λ r, rec_timestamp r = t) (insert_by_timestamp x l)
  = filter (λ r, rec_timestamp r = t) (x :: l).
Proof.
  induction l as [|y l IH]; simpl; [done|].
  destruct (Z.leb_spec (rec_timestamp x) (rec_timestamp y)) as [Hle|Hgt]; [done|].
  rewrite filter_cons, IH, !filter_cons.
  destruct (decide (rec_timestamp y = t)), (decide (rec_timestamp x = t)); try done.
  lia.
Qed.

Lemma sort_by_timestamp_stable t l :
  filter (λ r, rec_timestamp r = t) (sort_by_timestamp l)
  = filter (λ r, rec_timestamp r = t) l.
Proof.
  induction l as [|x l IH]; simpl; [done|].
  fold (sort_by_timestamp l).
  by rewrite insert_by_timestamp_stable, !filter_cons, IH.
Qed.

(** A record not older than any other goes last. *)
Lemma insert_by_timestamp_last x y l :
  rec_timestamp x ≤ rec_timestamp y →
  insert_by_timestamp x (l ++ [y]) = insert_by_timestamp x l ++ [y].
Proof.
  intros Hle. induction l as [|z l IH]; simpl.
  - by destruct (Z.leb_spec (rec_timestamp x) (rec_timestamp y)); [|lia].
  - destruct (rec_timestamp x <=? rec_timestamp z); [done|]. by rewrite IH.
Qed.

Lemma sort_by_timestamp_last y l :
  Forall (λ r, rec_timestamp r ≤ rec_timestamp y) l →
  sort_by_timestamp (l ++ [y]) = sort_by_timestamp l ++ [y].
Proof.
  induction l as [|x l IH]; simpl; intros Hall; [done|].
  apply Forall_cons in Hall as [Hx Hl].
  fold (sort_by_timestamp (l ++ [y])) (sort_by_timestamp l).
  rewrite IH by done. by apply insert_by_timestamp_last.
Qed.

Lemma sum_sizes_perm l1 l2 : l1 ≡ₚ l2 → sum_sizes l1 = sum_sizes l2.
Proof. induction 1; simpl; lia. Qed.

Lemma sum_sizes_nonneg l : Forall (λ r, 0 ≤ rec_size r) l → 0 ≤ sum_sizes l.
Proof. induction 1; simpl; lia. Qed.

(** The store after the deletion of the keys of [l], key by key. *)
Lemma lookup_foldl_remove l st k :
  foldl (λ s r, removeCacheData (getCacheKey (rec_url r)) s) st l !! k
  = if decide (k ∈ evicted_keys l) then None else st !! k.
Proof.
  revert st. induction l as [|r l IH]; intros st.
  - cbn [foldl]. destruct (decide (k ∈ evicted_keys [])) as [Hin|_]; [|done].
    by apply elem_of_nil in Hin.
  - cbn [foldl]. rewrite IH. unfold removeCacheData.
    change (evicted_keys (r :: l))
      with (storeKey (getCacheKey (rec_url r)) :: evicted_keys l).
    fold (storeKey (getCacheKey (rec_url r))).
    destruct (decide (k ∈ evicted_keys l)) as [Hin|Hnin].
    + rewrite decide_True; [done|]. by right.
    + destruct (decide (storeKey (getCacheKey (rec_url r)) = k)) as [<-|Hne].
      * rewrite lookup_delete_eq, decide_True; [done|]. by left.
      * rewrite lookup_delete_ne by done. rewrite decide_False; [done|].
        rewrite elem_of_cons. intros [?|?]; auto.
Qed.

(** What the loop does: it takes a prefix of the records, one at a time
    while the total exceeds the ceiling. *)
Lemma evict_spec l total st :
  ∃ evicted kept,
    l = evicted ++ kept ∧
    evict l total st
    = (kept, total - sum_sizes evicted,
       foldl (λ s r, removeCacheData (getCacheKey (rec_url r)) s) st evicted) ∧
    (total - sum_sizes evicted ≤ MAX_CACHE_SIZE ∨ kept = []) ∧
    (∀ p r q, evicted = p ++ r :: q → MAX_CACHE_SIZE < total - sum_sizes p).
Proof.
  revert total st. induction l as [|x l IH]; intros total st; simpl.
  - exists [], []. simpl. rewrite Z.sub_0_r. repeat split; auto.
    intros p r q H. by destruct p.
  - destruct (Z.ltb_spec MAX_CACHE_SIZE total) as [Hgt|Hle].
    + destruct (IH (total - rec_size x) (removeCacheData (getCacheKey (rec_url x)) st))
        as (ev & kept & -> & Hev & Hstop & Hmin).
      exists (x :: ev), kept. simpl. rewrite Hev.
      replace (total - (rec_size x + sum_sizes ev))
        with (total - rec_size x - sum_sizes ev) by lia.
      repeat split; [done|].
      intros p r q Hp. destruct p as [|y p]; simpl in *.
      * lia.
      * injection Hp as <- ->.
        specialize (Hmin p r q eq_refl). lia.
    + exists [], (x :: l). simpl. rewrite Z.sub_0_r. repeat split; [by left|].
      intros p r q H. by destruct p.
Qed.

Lemma enforceCacheSizeLimit_under st :
  totalSize (getCacheIndex st) ≤ MAX_CACHE_SIZE → enforceCacheSizeLimit st = st.
Proof.
  intros H. unfold enforceCacheSizeLimit.
  by destruct (Z.leb_spec (totalSize (getCacheIndex st)) MAX_CACHE_SIZE); [|lia].
Qed.

Lemma enforceCacheSizeLimit_over st :
  MAX_CACHE_SIZE < totalSize (getCacheIndex st) →
  ∃ evicted kept,
    sort_by_timestamp (entries (getCacheIndex st)) = evicted ++ kept ∧
    enforceCacheSizeLimit st
    = setCacheData CACHE_INDEX_KEY
        (ItemIndex (mkCacheIndex (totalSize (getCacheIndex st) - sum_sizes evicted) kept))
        (foldl (λ s r, removeCacheData (getCacheKey (rec_url r)) s) st evicted) ∧
    (totalSize (getCacheIndex st) - sum_sizes evicted ≤ MAX_CACHE_SIZE ∨ kept = []) ∧
    (∀ p r q, evicted = p ++ r :: q →
              MAX_CACHE_SIZE < totalSize (getCacheIndex st) - sum_sizes p).
Proof.
  intros H. unfold enforceCacheSizeLimit.
  destruct (Z.leb_spec (totalSize (getCacheIndex st)) MAX_CACHE_SIZE); [lia|].
  destruct (evict_spec (sort_by_timestamp (entries (getCacheIndex st)))
              (totalSize (getCacheIndex st)) st)
    as (evicted & kept & Hsplit & -> & Hstop & Hmin).
  by exists evicted, kept.
Qed.

(** ** Stores within the ceiling *)

Lemma sizes_nonneg_set_index i st :
  sizes_nonneg st → sizes_nonneg (setCacheData CACHE_INDEX_KEY (ItemIndex i) st).
Proof.
  intros H k e. unfold setCacheData. rewrite lookup_insert.
  case_decide; [done|]. apply H.
Qed.

Lemma sizes_nonneg_set_entry key e st :
  0 ≤ size e → sizes_nonneg st → sizes_nonneg (setCacheData key (ItemEntry e) st).
Proof.
  intros He H k e'. unfold setCacheData. rewrite lookup_insert.
  case_decide; [by intros [= <-]|]. apply H.
Qed.

Lemma sizes_nonneg_remove key st :
  sizes_nonneg st → sizes_nonneg (removeCacheData key st).
Proof.
  intros H k e. unfold removeCacheData. rewrite lookup_delete.
  case_decide; [done|]. apply H.
Qed.

Lemma sizes_nonneg_foldl_remove l st :
  sizes_nonneg st →
  sizes_nonneg (foldl (λ s r, removeCacheData (getCacheKey (rec_url r)) s) st l).
Proof.
  intros H k e. rewrite lookup_foldl_remove. case_decide; [done|]. apply H.
Qed.

Lemma sizes_nonneg_clearCache st : sizes_nonneg st → sizes_nonneg (clearCache st).
Proof.
  intros H k e. rewrite clearCache_lookup.
  destruct (startsWith k CACHE_PREFIX); [done|]. apply H.
Qed.

Lemma sizes_nonneg_setFirstTimeUser b st :
  sizes_nonneg st → sizes_nonneg (setFirstTimeUser b st).
Proof.
  intros H k e. unfold setFirstTimeUser. rewrite lookup_insert.
  case_decide; [done|]. apply H.
Qed.

Lemma getEntry_nonneg key st e :
  sizes_nonneg st → getEntry key st = Some e → 0 ≤ size e.
Proof.
  intros H. unfold getEntry, getCacheData.
  destruct (st !! (CACHE_PREFIX +:+ key)) as [[e'| |]|] eqn:Hk; try done.
  intros [= <-]. by eapply H.
Qed.

Lemma within_limit_empty : within_limit ∅.
Proof.
  repeat split.
  - unfold getCacheIndex, getCacheData. rewrite lookup_empty. cbn. done.
  - unfold getCacheIndex, getCacheData. rewrite lookup_empty. constructor.
  - intros k e. by rewrite lookup_empty.
Qed.

Lemma within_limit_removeCachedResource u st :
  within_limit st → within_limit (removeCachedResource u st).
Proof.
  intros (Htot & Hpos & Hst). unfold removeCachedResource.
  destruct (getEntry (getCacheKey u) st) as [e|] eqn:He; [|done].
  pose proof (getEntry_nonneg _ _ _ Hst He) as Hsz.
  unfold removeFromCacheIndex. rewrite getCacheIndex_remove_entry.
  destruct (splice_url u (entries (getCacheIndex st))) as [[r rest]|] eqn:Hs.
  - repeat split.
    + rewrite getCacheIndex_set_index. cbn. lia.
    + rewrite getCacheIndex_set_index. cbn.
      apply Forall_forall. intros x Hx.
      apply (proj1 (Forall_forall _ _) Hpos). by eapply splice_url_subset.
    + by apply sizes_nonneg_set_index, sizes_nonneg_remove.
  - repeat split.
    + by rewrite getCacheIndex_remove_entry.
    + by rewrite getCacheIndex_remove_entry.
    + by apply sizes_nonneg_remove.
Qed.

Lemma within_limit_clearCache st : within_limit st → within_limit (clearCache st).
Proof.
  intros (_ & _ & Hst).
  assert (getCacheIndex (clearCache st) = mkCacheIndex 0 []) as Hi.
  { unfold getCacheIndex, getCacheData. rewrite clearCache_lookup.
    by rewrite (storeKey_startsWith CACHE_INDEX_KEY). }
  repeat split.
  - rewrite Hi. cbn. done.
  - rewrite Hi. constructor.
  - by apply sizes_nonneg_clearCache.
Qed.

(** The index after the write of the entry and [updateCacheIndex]. *)
Lemma getCacheIndex_updateCacheIndex now_idx u sz st :
  getCacheIndex (updateCacheIndex now_idx u sz st)
  = match splice_url u (entries (getCacheIndex st)) with
    | Some (old, rest) =>
        mkCacheIndex (totalSize (getCacheIndex st) - rec_size old + sz)
                     (rest ++ [mkIndexRecord u sz now_idx])
    | None =>
        mkCacheIndex (totalSize (getCacheIndex st) + sz)
                     (entries (getCacheIndex st) ++ [mkIndexRecord u sz now_idx])
    end.
Proof.
  unfold updateCacheIndex. rewrite getCacheIndex_set_index.
  by destruct (splice_url u (entries (getCacheIndex st))) as [[old rest]|].
Qed.

(** The surplus of [totalSize] over the sum of the records is what it
    was before the update. *)
Lemma updateCacheIndex_surplus now_idx u sz st :
  let i := getCacheIndex (updateCacheIndex now_idx u sz st) in
  totalSize i - sum_sizes (entries i)
  = totalSize (getCacheIndex st) - sum_sizes (entries (getCacheIndex st)).
Proof.
  cbv zeta. rewrite getCacheIndex_updateCacheIndex.
  destruct (splice_url u (entries (getCacheIndex st))) as [[old rest]|] eqn:Hs; cbn.
  - rewrite (splice_url_sum _ _ _ _ Hs), sum_sizes_app. simpl. lia.
  - rewrite sum_sizes_app. simpl. lia.
Qed.

Lemma updateCacheIndex_nonneg now_idx u sz st :
  0 ≤ sz →
  Forall (λ r, 0 ≤ rec_size r) (entries (getCacheIndex st)) →
  Forall (λ r, 0 ≤ rec_size r) (entries (getCacheIndex (updateCacheIndex now_idx u sz st))).
Proof.
  intros Hsz Hpos. rewrite getCacheIndex_updateCacheIndex.
  destruct (splice_url u (entries (getCacheIndex st))) as [[old rest]|] eqn:Hs; cbn.
  - apply Forall_app. split; [|by repeat constructor].
    apply Forall_forall. intros x Hx.
    apply (proj1 (Forall_forall _ _) Hpos). by eapply splice_url_subset.
  - apply Forall_app. split; [done|by repeat constructor].
Qed.

(** Within the ceiling before [enforceCacheSizeLimit] up to the records
    the index holds, within the ceiling after it. *)
Lemma within_limit_enforce st :
  totalSize (getCacheIndex st) - sum_sizes (entries (getCacheIndex st)) ≤ MAX_CACHE_SIZE →
  Forall (λ r, 0 ≤ rec_size r) (entries (getCacheIndex st)) →
  sizes_nonneg st →
  within_limit (enforceCacheSizeLimit st).
Proof.
  intros Hsur Hpos Hst.
  destruct (Z.le_gt_cases (totalSize (getCacheIndex st)) MAX_CACHE_SIZE) as [Hle|Hgt].
  - rewrite enforceCacheSizeLimit_under by done. by repeat split.
  - destruct (enforceCacheSizeLimit_over st Hgt)
      as (evicted & kept & Hsplit & -> & Hstop & _).
    assert (sum_sizes (entries (getCacheIndex st))
            = sum_sizes evicted + sum_sizes kept) as Hsum.
    { rewrite <-sum_sizes_app, <-Hsplit. symmetry.
      apply sum_sizes_perm, sort_by_timestamp_perm. }
    assert (Forall (λ r, 0 ≤ rec_size r) kept) as Hkept.
    { apply Forall_forall. intros x Hx.
      apply (proj1 (Forall_forall _ _) Hpos).
      rewrite <-(sort_by_timestamp_perm (entries (getCacheIndex st))), Hsplit.
      apply elem_of_app. by right. }
    repeat split.
    + rewrite getCacheIndex_set_index. cbn.
      destruct Hstop as [?| ->]; [done|]. simpl in Hsum. lia.
    + by rewrite getCacheIndex_set_index.
    + by apply sizes_nonneg_set_index, sizes_nonneg_foldl_remove.
Qed.

Lemma within_limit_cacheResource now now_idx u d ct st :
  within_limit st → within_limit (cacheResource now now_idx u d ct st).
Proof.
  intros (Htot & Hpos & Hst). unfold cacheResource.
  assert (0 ≤ size (newEntry now u d ct)) as Hsz by (cbn; lia).
  apply within_limit_enforce.
  - rewrite updateCacheIndex_surplus, getCacheIndex_set_entry.
    pose proof (sum_sizes_nonneg _ Hpos). lia.
  - apply updateCacheIndex_nonneg; [done|]. by rewrite getCacheIndex_set_entry.
  - unfold updateCacheIndex. by apply sizes_nonneg_set_index, sizes_nonneg_set_entry.
Qed.

Lemma within_limit_step st o : within_limit st → within_limit (step st o).
Proof.
  intros H. destruct o as [now now_idx u d ct|now u|u| |b]; simpl.
  - by apply within_limit_cacheResource.
  - unfold getCachedResource.
    destruct (getEntry (getCacheKey u) st) as [e|]; [|done].
    destruct (expiresAt e <? now); [|done].
    by apply within_limit_removeCachedResource.
  - by apply within_limit_removeCachedResource.
  - by apply within_limit_clearCache.
  - destruct H as (Htot & Hpos & Hst). repeat split.
    + by rewrite getCacheIndex_setFirstTimeUser.
    + by rewrite getCacheIndex_setFirstTimeUser.
    + by apply sizes_nonneg_setFirstTimeUser.
Qed.

Lemma within_limit_run ops st : within_limit st → within_limit (run ops st).
Proof.
  revert st. induction ops as [|o ops IH]; intros st H; simpl; [done|].
  by apply IH, within_limit_step.
Qed.

End Eviction.

(** C2: after every [cacheResource], whatever operations came before on
    the store, the reported size is at most the ceiling.  When the total
    is within the ceiling the enforcement changes nothing; when it
    exceeds it, the enforcement takes the records in ascending timestamp
    order (the stable sort of the index), deletes the stored entry of
    each evicted record, drops the record from the index and subtracts
    its size from [totalSize], record after record and only while the
    total exceeds the ceiling, until the total is within the ceiling or
    no record is left; no other key of the store changes. *)
Theorem size_limit_enforced :
  (∀ ops now now_idx u d ct,
     getCacheSize (cacheResource now now_idx u d ct (run ops ∅)) ≤ MAX_CACHE_SIZE) ∧
  (∀ st, totalSize (getCacheIndex st) ≤ MAX_CACHE_SIZE →
         enforceCacheSizeLimit st = st) ∧
  (∀ st, MAX_CACHE_SIZE < totalSize (getCacheIndex st) →
     ∃ evicted kept,
       sort_by_timestamp (entries (getCacheIndex st)) = evicted ++ kept ∧
       evicted ++ kept ≡ₚ entries (getCacheIndex st) ∧
       StronglySorted older_or_same (evicted ++ kept) ∧
       getCacheIndex (enforceCacheSizeLimit st)
       = mkCacheIndex (totalSize (getCacheIndex st) - sum_sizes evicted) kept ∧
       (∀ k, k ∈ evicted_keys evicted → enforceCacheSizeLimit st !! k = None) ∧
       (∀ k, k ∉ evicted_keys evicted → k ≠ storeKey CACHE_INDEX_KEY →
             enforceCacheSizeLimit st !! k = st !! k) ∧
       (totalSize (getCacheIndex st) - sum_sizes evicted ≤ MAX_CACHE_SIZE ∨ kept = []) ∧
       (∀ p r q, evicted = p ++ r :: q →
                 MAX_CACHE_SIZE < totalSize (getCacheIndex st) - sum_sizes p)).
Proof.
  split; [|split].
  - intros ops now now_idx u d ct.
    apply (within_limit_cacheResource now now_idx u d ct (run ops ∅)).
    apply within_limit_run, within_limit_empty.
  - apply enforceCacheSizeLimit_under.
  - intros st Hgt.
    destruct (enforceCacheSizeLimit_over st Hgt)
      as (evicted & kept & Hsplit & Hst & Hstop & Hmin).
    exists evicted, kept. split; [done|]. split.
    { rewrite <-Hsplit. apply sort_by_timestamp_perm. }
    split.
    { rewrite <-Hsplit. apply sort_by_timestamp_sorted. }
    split.
    { rewrite Hst. apply getCacheIndex_set_index. }
    split.
    { intros k Hk. rewrite Hst. unfold setCacheData.
      rewrite lookup_insert_ne.
      - rewrite lookup_foldl_remove. by rewrite decide_True.
      - intros <-. unfold evicted_keys in Hk.
        apply list_elem_of_fmap in Hk as (r & Hr & _).
        by apply storeKey_inj, eq_sym, getCacheKey_not_index in Hr. }
    split; [|done].
    intros k Hk Hi. rewrite Hst. unfold setCacheData.
    rewrite lookup_insert_ne by (by intros <-).
    rewrite lookup_foldl_remove. by rewrite decide_False.
Qed.

Lemma size_limit_enforced_witness :
  let a := mkIndexRecord "https://x/a" 30000000 2 in
  let b := mkIndexRecord "https://x/b" 30000000 1 in
  let st : Storage :=
    setCacheData CACHE_INDEX_KEY (ItemIndex (mkCacheIndex 60000000 [a; b])) ∅ in
  ∃ evicted kept,
    sort_by_timestamp [a; b] = evicted ++ kept ∧
    getCacheIndex (enforceCacheSizeLimit st)
    = mkCacheIndex (60000000 - sum_sizes evicted) kept.
Proof.
  intros a b st.
  destruct size_limit_enforced as (_ & _ & H).
  destruct (H st) as (evicted & kept & Hsort & _ & _ & Hi & _).
  - vm_compute. reflexivity.
  - exists evicted, kept. split; [exact Hsort|exact Hi].
Defined.

(** ** Read after write *)

Section ReadAfterWrite.

Implicit Types (l : list IndexRecord) (st : Storage).

Lemma String_repeat_length c n : String.length (String_repeat c n) = n.
Proof. induction n as [|n IH]; simpl; congruence. Qed.

Lemma oversize_document_size :
  Z.of_nat (String.length oversize_document) = MAX_CACHE_SIZE + 1.
Proof.
  unfold oversize_document. rewrite String_repeat_length, N_nat_Z.
  reflexivity.
Qed.

(** A document longer than the ceiling, written to an empty store, is
    evicted by the enforcement of the same call. *)
Lemma cacheResource_oversize now now_idx u d ct :
  MAX_CACHE_SIZE < Z.of_nat (String.length d) →
  getEntry (getCacheKey u) (cacheResource now now_idx u d ct ∅) = None.
Proof.
  intros Hbig. unfold cacheResource.
  set (e := newEntry now u d ct).
  set (st1 := setCacheData (getCacheKey u) (ItemEntry e) ∅).
  assert (getCacheIndex (updateCacheIndex now_idx u (size e) st1)
          = mkCacheIndex (size e) [mkIndexRecord u (size e) now_idx]) as Hi.
  { rewrite getCacheIndex_updateCacheIndex. subst st1.
    rewrite getCacheIndex_set_entry. unfold getCacheIndex, getCacheData.
    rewrite lookup_empty. cbn [splice_url entries totalSize app]. f_equal; lia. }
  unfold enforceCacheSizeLimit. rewrite Hi. cbn [totalSize entries].
  assert (size e = Z.of_nat (String.length d)) as Hsz by reflexivity.
  destruct (Z.leb_spec (size e) MAX_CACHE_SIZE) as [?|_]; [lia|].
  cbn [sort_by_timestamp foldr insert_by_timestamp evict rec_size rec_url].
  destruct (Z.ltb_spec MAX_CACHE_SIZE (size e)) as [_|?]; [|lia].
  rewrite getEntry_set_index. apply getEntry_remove_eq.
Qed.

(** The loop never reaches a last record that fits under the ceiling
    once the records before it are gone. *)
Lemma evict_keeps_last pre x total st :
  total - sum_sizes pre ≤ MAX_CACHE_SIZE →
  evict (pre ++ [x]) total st
  = ((evict pre total st).1.1 ++ [x], (evict pre total st).1.2, (evict pre total st).2).
Proof.
  revert total st. induction pre as [|y pre IH]; intros total st Hle; simpl in *.
  - by destruct (Z.ltb_spec MAX_CACHE_SIZE total); [lia|].
  - destruct (MAX_CACHE_SIZE <? total); [|done].
    apply IH. lia.
Qed.

Lemma sum_sizes_elem x l :
  Forall (λ r, 0 ≤ rec_size r) l → x ∈ l → rec_size x ≤ sum_sizes l.
Proof.
  induction 1 as [|y l Hy Hl IH]; intros Hin.
  - by apply elem_of_nil in Hin.
  - pose proof (sum_sizes_nonneg l Hl). simpl.
    apply elem_of_cons in Hin as [->|Hin]; [lia|]. specialize (IH Hin). lia.
Qed.

(** While a record larger than the ceiling is among the records, the
    running total of a consistent index stays over the ceiling: the
    loop does not stop before it has deleted the key of that record. *)
Lemma evict_oversize x l total st :
  x ∈ l → MAX_CACHE_SIZE < rec_size x →
  Forall (λ r, 0 ≤ rec_size r) l → total = sum_sizes l →
  getEntry (getCacheKey (rec_url x)) (evict l total st).2 = None.
Proof.
  revert total st. induction l as [|y l IH]; intros total st Hin Hbig Hnn Htot.
  - by apply elem_of_nil in Hin.
  - pose proof (sum_sizes_elem x (y :: l) Hnn Hin) as Hle.
    inversion Hnn as [|? ? Hy Hl]; subst. cbn [evict]. simpl in Hle.
    destruct (Z.ltb_spec MAX_CACHE_SIZE (sum_sizes (y :: l))) as [_|?];
      [|simpl in *; lia].
    apply elem_of_cons in Hin as [->|Hin].
    + destruct (evict_getEntry l (sum_sizes (y :: l) - rec_size y)
                  (removeCacheData (getCacheKey (rec_url y)) st)
                  (getCacheKey (rec_url y))) as [->| ->]; [|done].
      apply getEntry_remove_eq.
    + apply IH; [done|done|done|simpl; lia].
Qed.

(** A document longer than the ceiling is evicted by the enforcement of
    the call that writes it, whatever else a consistent index holds. *)
Lemma cacheResource_oversize_any now now_idx u d ct st :
  MAX_CACHE_SIZE < Z.of_nat (String.length d) →
  index_consistent (getCacheIndex st) →
  Forall (λ r, 0 ≤ rec_size r) (entries (getCacheIndex st)) →
  getEntry (getCacheKey u) (cacheResource now now_idx u d ct st) = None.
Proof.
  intros Hbig Hcons Hnn. unfold cacheResource.
  set (e := newEntry now u d ct).
  assert (size e = Z.of_nat (String.length d)) as Hsz by reflexivity.
  set (st1 := setCacheData (getCacheKey u) (ItemEntry e) st).
  set (st2 := updateCacheIndex now_idx u (size e) st1).
  set (new := mkIndexRecord u (size e) now_idx).
  assert (getCacheIndex st1 = getCacheIndex st) as Hi1
    by apply getCacheIndex_set_entry.
  assert (index_consistent (getCacheIndex st2)) as Hcons2.
  { pose proof (updateCacheIndex_surplus now_idx u (size e) st1) as Hs.
    cbv zeta in Hs. fold st2 in Hs. rewrite Hi1 in Hs. red in Hcons. red. lia. }
  assert (Forall (λ r, 0 ≤ rec_size r) (entries (getCacheIndex st2))) as Hnn2.
  { apply updateCacheIndex_nonneg; [lia|by rewrite Hi1]. }
  assert (new ∈ entries (getCacheIndex st2)) as Hin.
  { subst st2. rewrite getCacheIndex_updateCacheIndex.
    destruct (splice_url u (entries (getCacheIndex st1))) as [[old rest]|];
      cbn [entries]; apply elem_of_app; right; apply list_elem_of_here. }
  assert (new ∈ sort_by_timestamp (entries (getCacheIndex st2))) as Hin'
    by (by rewrite sort_by_timestamp_perm).
  red in Hcons2.
  pose proof (sum_sizes_elem new _ Hnn2 Hin) as Hle. cbn [new rec_size] in Hle.
  unfold enforceCacheSizeLimit.
  destruct (Z.leb_spec (totalSize (getCacheIndex st2)) MAX_CACHE_SIZE) as [?|_]; [lia|].
  pose proof (evict_oversize new (sort_by_timestamp (entries (getCacheIndex st2)))
                (totalSize (getCacheIndex st2)) st2 Hin') as Hev.
  destruct (evict (sort_by_timestamp (entries (getCacheIndex st2)))
              (totalSize (getCacheIndex st2)) st2) as [[kept total] st3].
  rewrite getEntry_set_index.
  change (getEntry (getCacheKey (rec_url new)) (kept, total, st3).2 = None).
  apply Hev.
  - cbn [new rec_size]. lia.
  - by rewrite sort_by_timestamp_perm.
  - rewrite Hcons2. symmetry. apply sum_sizes_perm, sort_by_timestamp_perm.
Qed.

End ReadAfterWrite.

(** C1, as stated, fails: a document of 50 MiB and one character cached
    in an empty store is evicted by the size enforcement of the same
    [cacheResource] call, and the read that follows returns [null]. *)
Lemma read_after_write_oversize :
  (getCachedResource 0 "https://x/a"
     (cacheResource 0 0 "https://x/a" oversize_document "text/html" ∅)).1
  ≠ Some oversize_document.
Proof.
  unfold getCachedResource.
  rewrite cacheResource_oversize; [discriminate|].
  rewrite oversize_document_size. lia.
Qed.

(** C1, amended: in a store whose index is consistent, has one record per
    URL, no timestamp later than the clock and no other URL with the
    storage key of [u], a document [d] of at most 50 MiB cached under [u]
    is what a read of [u] returns, as long as the clock of the read has
    not passed the expiry of the entry (no time elapsing is one case).
    A document longer than the ceiling, cached in a store whose index is
    consistent and holds no record of negative size, is evicted by the
    enforcement of the same call: no entry is left under the key of [u]
    and a read of [u], at any clock, returns [null]. *)
Theorem read_after_write (now now_idx t : Z) (u d ct : string) (st : Storage) :
  index_consistent (getCacheIndex st) →
  (Z.of_nat (String.length d) ≤ MAX_CACHE_SIZE →
   NoDup (map rec_url (entries (getCacheIndex st))) →
   Forall (λ r, rec_timestamp r ≤ now_idx) (entries (getCacheIndex st)) →
   Forall (λ r, getCacheKey (rec_url r) = getCacheKey u → rec_url r = u)
          (entries (getCacheIndex st)) →
   t ≤ now + getExpirationTime ct →
   (getCachedResource t u (cacheResource now now_idx u d ct st)).1 = Some d) ∧
  (MAX_CACHE_SIZE < Z.of_nat (String.length d) →
   Forall (λ r, 0 ≤ rec_size r) (entries (getCacheIndex st)) →
   getEntry (getCacheKey u) (cacheResource now now_idx u d ct st) = None ∧
   (getCachedResource t u (cacheResource now now_idx u d ct st)).1 = None).
Proof.
  intros Hcons. split.
  2: { intros Hbig Hnn.
       assert (getEntry (getCacheKey u) (cacheResource now now_idx u d ct st) = None)
         as Hgone by (by apply cacheResource_oversize_any).
       split; [exact Hgone|]. unfold getCachedResource. by rewrite Hgone. }
  intros Hsz Hnd Hts Hcol Ht.
  set (e := newEntry now u d ct).
  assert (getEntry (getCacheKey u) (cacheResource now now_idx u d ct st) = Some e) as He.
  { unfold cacheResource. fold e.
    set (st1 := setCacheData (getCacheKey u) (ItemEntry e) st).
    set (st2 := updateCacheIndex now_idx u (size e) st1).
    assert (getEntry (getCacheKey u) st2 = Some e) as He2.
    { subst st2 st1. unfold updateCacheIndex.
      rewrite getEntry_set_index. apply getEntry_set_eq. }
    destruct (Z.le_gt_cases (totalSize (getCacheIndex st2)) MAX_CACHE_SIZE) as [Hle|Hgt].
    { by rewrite enforceCacheSizeLimit_under. }
    (* the index after the update: the other records, then the new one *)
    assert (∃ rest,
      getCacheIndex st2
      = mkCacheIndex (sum_sizes rest + size e) (rest ++ [mkIndexRecord u (size e) now_idx]) ∧
      Forall (λ r, rec_timestamp r ≤ now_idx) rest ∧
      Forall (λ r, getCacheKey (rec_url r) ≠ getCacheKey u) rest) as (rest & Hi & Hts' & Hk).
    { subst st2. rewrite getCacheIndex_updateCacheIndex. subst st1.
      rewrite getCacheIndex_set_entry. red in Hcons.
      destruct (splice_url u (entries (getCacheIndex st))) as [[old rest]|] eqn:Hs.
      - exists rest. split; [|split].
        + f_equal. rewrite Hcons, (splice_url_sum _ _ _ _ Hs). lia.
        + apply Forall_forall. intros x Hx.
          apply (proj1 (Forall_forall _ _) Hts). by eapply splice_url_subset.
        + destruct (splice_url_NoDup _ _ _ _ Hs Hnd) as [_ Hne].
          apply Forall_forall. intros x Hx Hkey.
          apply (proj1 (Forall_forall _ _) Hne x Hx).
          apply (proj1 (Forall_forall _ _) Hcol x); [|done].
          by eapply splice_url_subset.
      - exists (entries (getCacheIndex st)). split; [|split].
        + f_equal. lia.
        + done.
        + apply splice_url_None in Hs.
          apply Forall_forall. intros x Hx Hkey.
          apply (proj1 (Forall_forall _ _) Hs x Hx).
          by apply (proj1 (Forall_forall _ _) Hcol x). }
    unfold enforceCacheSizeLimit.
    destruct (Z.leb_spec (totalSize (getCacheIndex st2)) MAX_CACHE_SIZE) as [?|_]; [lia|].
    rewrite Hi. cbn [entries totalSize].
    rewrite sort_by_timestamp_last by done.
    rewrite evict_keeps_last
      by (rewrite (sum_sizes_perm _ _ (sort_by_timestamp_perm rest)); subst e; cbn; lia).
    destruct (evict_spec (sort_by_timestamp rest) (sum_sizes rest + size e) st2)
      as (evicted & kept & Hsplit & -> & _ & _).
    cbn [fst snd]. rewrite getEntry_set_index.
    unfold getEntry, getCacheData. rewrite lookup_foldl_remove.
    rewrite decide_False; [exact He2|].
    unfold evicted_keys. intros (r & Hr & Hin)%list_elem_of_fmap.
    apply storeKey_inj in Hr.
    apply (proj1 (Forall_forall _ _) Hk r); [|done].
    rewrite <-(sort_by_timestamp_perm rest), Hsplit. apply elem_of_app. by left. }
  unfold getCachedResource. rewrite He.
  destruct (Z.ltb_spec (expiresAt e) t) as [Hlt|_]; [|done].
  subst e. cbn in Hlt. lia.
Qed.

Lemma read_after_write_witness :
  (getCachedResource 5 "https://x/b"
     (cacheResource 5 5 "https://x/b" "BBBBBBBBBB" "text/css"
        (cacheResource 0 0 "https://x/a" "AAAAAAAAAA" "text/html" ∅))).1
  = Some "BBBBBBBBBB" ∧
  (getCachedResource 5 "https://x/b"
     (cacheResource 5 5 "https://x/b" oversize_document "text/css"
        (cacheResource 0 0 "https://x/a" "AAAAAAAAAA" "text/html" ∅))).1
  = None.
Proof.
  split.
  - destruct (read_after_write 5 5 5 "https://x/b" "BBBBBBBBBB" "text/css"
                (cacheResource 0 0 "https://x/a" "AAAAAAAAAA" "text/html" ∅)) as [H _].
    + vm_compute. reflexivity.
    + apply H.
      * vm_compute. discriminate.
      * apply (bool_decide_unpack _). vm_compute. exact I.
      * apply (bool_decide_unpack _). vm_compute. exact I.
      * apply (bool_decide_unpack _). vm_compute. exact I.
      * vm_compute. discriminate.
  - destruct (read_after_write 5 5 5 "https://x/b" oversize_document "text/css"
                (cacheResource 0 0 "https://x/a" "AAAAAAAAAA" "text/html" ∅)) as [_ H].
    + vm_compute. reflexivity.
    + destruct H as [_ H].
      * rewrite oversize_document_size. lia.
      * apply (bool_decide_unpack _). vm_compute. exact I.
      * exact H.
Defined.

(** ** Size accounting *)

Section StoredSum.

Implicit Types (st : Storage) (k : string) (it : Item).

Lemma stored_sum_empty : stored_sum ∅ = 0.
Proof. apply map_fold_empty. Qed.

Lemma stored_sum_insert_fresh k it st :
  st !! k = None → stored_sum (<[k:=it]> st) = item_size it + stored_sum st.
Proof.
  intros Hk. unfold stored_sum.
  rewrite map_fold_insert_L; [done| |done]. intros; lia.
Qed.

Lemma stored_sum_delete k st :
  stored_sum (delete k st) = stored_sum st - from_option item_size 0 (st !! k).
Proof.
  destruct (st !! k) as [it|] eqn:Hk; simpl.
  - unfold stored_sum.
    rewrite (map_fold_delete_L _ _ k it st); [lia| |done]. intros; lia.
  - rewrite delete_id by done. lia.
Qed.

Lemma stored_sum_insert k it st :
  stored_sum (<[k:=it]> st)
  = stored_sum st - from_option item_size 0 (st !! k) + item_size it.
Proof.
  rewrite <-insert_delete_eq.
  rewrite stored_sum_insert_fresh by apply lookup_delete_eq.
  rewrite stored_sum_delete. lia.
Qed.

Lemma stored_sum_no_entry st :
  (∀ k e, st !! k ≠ Some (ItemEntry e)) → stored_sum st = 0.
Proof.
  induction st as [|k it st Hk IH] using map_ind; intros Hno.
  - apply stored_sum_empty.
  - rewrite stored_sum_insert_fresh by done.
    rewrite IH.
    + destruct it as [e| |]; simpl; try lia.
      destruct (Hno k e). by rewrite lookup_insert_eq.
    + intros k' e He. apply (Hno k' e).
      rewrite lookup_insert_ne; [done|]. intros <-. congruence.
Qed.

End StoredSum.

Section Accounting.

Variable urls : list string.
Hypothesis Hfree : collision_free urls.

Implicit Types (st : Storage) (l : list IndexRecord) (r : IndexRecord) (u : string).

Lemma splice_url_elem u l old rest x :
  splice_url u l = Some (old, rest) → x ∈ l → rec_url x ≠ u → x ∈ rest.
Proof.
  intros (Hold & l1 & l2 & -> & -> & _)%splice_url_Some.
  rewrite !elem_of_app, elem_of_cons. intros [?|[->|?]] Hne; auto. done.
Qed.

Lemma splice_url_head u l old rest :
  splice_url u l = Some (old, rest) → old ∈ l.
Proof.
  intros (_ & l1 & l2 & -> & _)%splice_url_Some.
  rewrite elem_of_app, elem_of_cons. auto.
Qed.

(** Distinct URLs of [urls] have distinct keys in the store. *)
Lemma storeKey_ne u1 u2 :
  u1 ∈ urls → u2 ∈ urls → u1 ≠ u2 →
  storeKey (getCacheKey u1) ≠ storeKey (getCacheKey u2).
Proof. intros H1 H2 Hne Hk%storeKey_inj. by apply Hne, Hfree. Qed.

Lemma evicted_keys_NoDup l :
  NoDup (map rec_url l) → (∀ r, r ∈ l → rec_url r ∈ urls) → NoDup (evicted_keys l).
Proof.
  induction l as [|x l IH]; simpl; intros Hnd Hin; [constructor|].
  apply NoDup_cons in Hnd as [Hx Hnd]. apply NoDup_cons. split.
  - unfold evicted_keys. intros (y & Hy & Hyl)%list_elem_of_fmap.
    apply storeKey_inj, Hfree in Hy.
    + apply Hx. rewrite Hy. apply list_elem_of_fmap. by exists y.
    + apply Hin. by left.
    + apply Hin. by right.
  - apply IH; [done|]. intros r Hr. apply Hin. by right.
Qed.

(** An index write leaves the sum of the entries alone when the key of
    the index holds no entry. *)
Lemma stored_sum_set_index i st :
  (∀ e, st !! storeKey CACHE_INDEX_KEY ≠ Some (ItemEntry e)) →
  stored_sum (setCacheData CACHE_INDEX_KEY (ItemIndex i) st) = stored_sum st.
Proof.
  intros Hno. unfold setCacheData. rewrite stored_sum_insert.
  fold (storeKey CACHE_INDEX_KEY).
  destruct (st !! storeKey CACHE_INDEX_KEY) as [[e| |]|] eqn:Hk; simpl; try lia.
  by destruct (Hno e).
Qed.

Lemma accounted_no_entry_at_index st e :
  accounted urls st → st !! storeKey CACHE_INDEX_KEY ≠ Some (ItemEntry e).
Proof.
  intros Hacc Hk. destruct (acc_indexed _ _ Hacc _ _ Hk) as [Hkey _].
  by apply storeKey_inj, eq_sym, getCacheKey_not_index in Hkey.
Qed.

Lemma backed_item_size st r :
  backed st r →
  from_option item_size 0 (st !! storeKey (getCacheKey (rec_url r))) = rec_size r.
Proof.
  intros (e & He & _ & Hsz). unfold getEntry, getCacheData in He.
  fold (storeKey (getCacheKey (rec_url r))) in He.
  destruct (st !! storeKey (getCacheKey (rec_url r))) as [[e'| |]|]; try done.
  by injection He as ->.
Qed.

Lemma stored_sum_foldl_remove l st :
  NoDup (evicted_keys l) →
  (∀ r, r ∈ l → backed st r) →
  stored_sum (foldl (λ s r, removeCacheData (getCacheKey (rec_url r)) s) st l)
  = stored_sum st - sum_sizes l.
Proof.
  revert st. induction l as [|x l IH]; intros st Hnd Hb; simpl; [lia|].
  change (evicted_keys (x :: l))
    with (storeKey (getCacheKey (rec_url x)) :: evicted_keys l) in Hnd.
  apply NoDup_cons in Hnd as [Hx Hnd].
  rewrite IH; [|done|].
  - unfold removeCacheData. fold (storeKey (getCacheKey (rec_url x))).
    rewrite stored_sum_delete, backed_item_size; [lia|]. apply Hb. by left.
  - intros r Hr. destruct (Hb r) as (e & He & Hu & Hsz); [by right|].
    exists e. split; [|done]. rewrite getEntry_remove_ne; [done|].
    intros Hk. apply Hx. unfold evicted_keys.
    apply list_elem_of_fmap. exists r. split; [|done]. by rewrite Hk.
Qed.

Lemma accounted_empty : accounted urls ∅.
Proof.
  assert (getCacheIndex ∅ = mkCacheIndex 0 []) as Hi.
  { unfold getCacheIndex, getCacheData. by rewrite lookup_empty. }
  split; rewrite ?Hi; cbn.
  - constructor.
  - intros r Hr. by apply elem_of_nil in Hr.
  - intros r Hr. by apply elem_of_nil in Hr.
  - intros k e. by rewrite lookup_empty.
  - by rewrite stored_sum_empty.
  - reflexivity.
Qed.

Lemma accounted_setFirstTimeUser b st :
  accounted urls st → accounted urls (setFirstTimeUser b st).
Proof.
  intros Hacc.
  assert (∀ k e, setFirstTimeUser b st !! k = Some (ItemEntry e) →
                 st !! k = Some (ItemEntry e)) as Hsame.
  { intros k e. unfold setFirstTimeUser. rewrite lookup_insert.
    by case_decide. }
  split; rewrite ?getCacheIndex_setFirstTimeUser.
  - apply Hacc.
  - apply Hacc.
  - intros r Hr. destruct (acc_backed _ _ Hacc r Hr) as (e & He & Hu).
    exists e. by rewrite getEntry_setFirstTimeUser.
  - intros k e Hk. by apply (acc_indexed _ _ Hacc), Hsame.
  - rewrite (acc_total _ _ Hacc). unfold setFirstTimeUser.
    rewrite stored_sum_insert.
    destruct (st !! FIRST_TIME_USER_KEY) as [[e| |]|] eqn:Hk; simpl; try lia.
    destruct (acc_indexed _ _ Hacc _ _ Hk) as [Hkey _].
    by apply first_time_key_not_cache in Hkey.
  - apply Hacc.
Qed.

Lemma accounted_clearCache st : accounted urls st → accounted urls (clearCache st).
Proof.
  intros Hacc.
  assert (getCacheIndex (clearCache st) = mkCacheIndex 0 []) as Hi.
  { unfold getCacheIndex, getCacheData. rewrite clearCache_lookup.
    by rewrite (storeKey_startsWith CACHE_INDEX_KEY). }
  assert (∀ k e, clearCache st !! k ≠ Some (ItemEntry e)) as Hno.
  { intros k e. rewrite clearCache_lookup.
    destruct (startsWith k CACHE_PREFIX) eqn:Hk; [done|].
    intros Hst. destruct (acc_indexed _ _ Hacc _ _ Hst) as [-> _].
    unfold storeKey in Hk. by rewrite storeKey_startsWith in Hk. }
  split; rewrite ?Hi; cbn.
  - constructor.
  - intros r Hr. by apply elem_of_nil in Hr.
  - intros r Hr. by apply elem_of_nil in Hr.
  - intros k e Hk. by destruct (Hno k e).
  - by rewrite stored_sum_no_entry.
  - reflexivity.
Qed.

Lemma accounted_removeCachedResource u st :
  u ∈ urls → accounted urls st → accounted urls (removeCachedResource u st).
Proof.
  intros Hu Hacc. unfold removeCachedResource.
  destruct (getEntry (getCacheKey u) st) as [e|] eqn:He; [|done].
  (* the entry under the key of [u] is the entry of [u], and is indexed *)
  assert (st !! storeKey (getCacheKey u) = Some (ItemEntry e)) as Hst.
  { unfold getEntry, getCacheData in He. fold (storeKey (getCacheKey u)) in He.
    destruct (st !! storeKey (getCacheKey u)) as [[e'| |]|]; try done.
    by injection He as ->. }
  destruct (acc_indexed _ _ Hacc _ _ Hst) as (Hkey & r & Hr & Hru).
  assert (url e = u) as Hue.
  { apply Hfree; [rewrite <-Hru; by apply (acc_urls _ _ Hacc)|done|].
    by apply storeKey_inj in Hkey. }
  unfold removeFromCacheIndex. rewrite getCacheIndex_remove_entry.
  destruct (splice_url u (entries (getCacheIndex st))) as [[old rest]|] eqn:Hs.
  2:{ apply splice_url_None in Hs.
      destruct (proj1 (Forall_forall _ _) Hs r Hr). congruence. }
  destruct (splice_url_NoDup _ _ _ _ Hs (acc_nodup _ _ Hacc)) as [Hnd Hne].
  pose proof (proj1 (splice_url_Some _ _ _ _ Hs)) as Hold.
  pose proof (splice_url_head _ _ _ _ Hs) as Hold_in.
  assert (size e = rec_size old) as Hsize.
  { destruct (acc_backed _ _ Hacc old Hold_in) as (e' & He' & _ & Hsz).
    rewrite Hold, He in He'. by injection He' as <-. }
  split; rewrite ?getCacheIndex_set_index; cbn.
  - done.
  - intros x Hx. apply (acc_urls _ _ Hacc). by eapply splice_url_subset.
  - intros x Hx.
    destruct (acc_backed _ _ Hacc x) as (e' & He' & Hu'); [by eapply splice_url_subset|].
    exists e'. split; [|done].
    rewrite getEntry_set_index, getEntry_remove_ne; [done|].
    intros Hk. apply (proj1 (Forall_forall _ _) Hne x Hx). symmetry.
    apply Hfree; [done| |done].
    apply (acc_urls _ _ Hacc). by eapply splice_url_subset.
  - intros k e'. unfold setCacheData, removeCacheData.
    rewrite lookup_insert. case_decide; [done|].
    rewrite lookup_delete. case_decide as Hk; [done|]. intros Hk'.
    destruct (acc_indexed _ _ Hacc _ _ Hk') as (-> & x & Hx & Hxu).
    split; [done|]. exists x. split; [|done].
    eapply splice_url_elem; [exact Hs|done|].
    intros Hxu'. apply Hk. unfold storeKey. by rewrite <-Hxu, Hxu'.
  - rewrite stored_sum_set_index.
    + unfold removeCacheData. fold (storeKey (getCacheKey u)).
      rewrite stored_sum_delete, Hst. simpl.
      rewrite (acc_total _ _ Hacc). lia.
    + intros e'. unfold removeCacheData. rewrite lookup_delete.
      case_decide; [done|]. by apply accounted_no_entry_at_index.
  - red. cbn [entries totalSize].
    pose proof (acc_consistent _ _ Hacc) as Hc. red in Hc.
    rewrite (splice_url_sum _ _ _ _ Hs) in Hc. lia.
Qed.

(** The entry and the index written, before the enforcement. *)
Lemma accounted_write now now_idx u d ct st :
  u ∈ urls → accounted urls st →
  accounted urls
    (updateCacheIndex now_idx u (size (newEntry now u d ct))
       (setCacheData (getCacheKey u) (ItemEntry (newEntry now u d ct)) st)).
Proof.
  intros Hu Hacc.
  set (e := newEntry now u d ct).
  set (st1 := setCacheData (getCacheKey u) (ItemEntry e) st).
  set (new := mkIndexRecord u (size e) now_idx).
  (* the records kept by the update, and what the key of [u] held *)
  assert (∃ rest,
    getCacheIndex (updateCacheIndex now_idx u (size e) st1)
    = mkCacheIndex
        (totalSize (getCacheIndex st)
         - from_option item_size 0 (st !! storeKey (getCacheKey u)) + size e)
        (rest ++ [new]) ∧
    NoDup (map rec_url rest) ∧
    (∀ x, x ∈ rest → x ∈ entries (getCacheIndex st) ∧ rec_url x ≠ u) ∧
    (∀ x, x ∈ entries (getCacheIndex st) → rec_url x ≠ u → x ∈ rest) ∧
    sum_sizes rest
    = sum_sizes (entries (getCacheIndex st))
      - from_option item_size 0 (st !! storeKey (getCacheKey u)))
    as (rest & Hi & Hnd & Hrest & Hkeep & Hsum).
  { rewrite getCacheIndex_updateCacheIndex. subst st1.
    rewrite getCacheIndex_set_entry.
    destruct (splice_url u (entries (getCacheIndex st))) as [[old rest]|] eqn:Hs.
    - destruct (splice_url_NoDup _ _ _ _ Hs (acc_nodup _ _ Hacc)) as [Hnd Hne].
      assert (from_option item_size 0 (st !! storeKey (getCacheKey u)) = rec_size old)
        as Hold.
      { rewrite <-(proj1 (splice_url_Some _ _ _ _ Hs)).
        apply backed_item_size, (acc_backed _ _ Hacc).
        by eapply splice_url_head. }
      exists rest. split; [|split; [done|split; [|split]]].
      + by rewrite Hold.
      + intros x Hx. split; [by eapply splice_url_subset|].
        by apply (proj1 (Forall_forall _ _) Hne).
      + intros x Hx Hxu. by eapply splice_url_elem.
      + rewrite Hold, (splice_url_sum _ _ _ _ Hs). lia.
    - apply splice_url_None in Hs.
      assert (from_option item_size 0 (st !! storeKey (getCacheKey u)) = 0) as Hold.
      { destruct (st !! storeKey (getCacheKey u)) as [[e'| |]|] eqn:Hk; simpl; try lia.
        destruct (acc_indexed _ _ Hacc _ _ Hk) as (Hkey & x & Hx & Hxu).
        destruct (proj1 (Forall_forall _ _) Hs x Hx).
        rewrite Hxu. apply Hfree; [|done|].
        * rewrite <-Hxu. by apply (acc_urls _ _ Hacc).
        * by apply storeKey_inj in Hkey. }
      exists (entries (getCacheIndex st)).
      split; [|split; [apply Hacc|split; [|split]]].
      + rewrite Hold. f_equal. lia.
      + intros x Hx. split; [done|]. by apply (proj1 (Forall_forall _ _) Hs).
      + done.
      + rewrite Hold. lia. }
  split; rewrite ?Hi; cbn [entries totalSize].
  - rewrite map_app. apply NoDup_app. split; [done|]. split; [|by apply NoDup_singleton].
    intros x (y & -> & Hy)%list_elem_of_fmap Hx. cbn in Hx.
    apply list_elem_of_singleton in Hx. by destruct (Hrest y Hy).
  - intros x [Hx| ->%list_elem_of_singleton]%elem_of_app; [|done].
    apply (acc_urls _ _ Hacc). by apply Hrest.
  - intros x [Hx| ->%list_elem_of_singleton]%elem_of_app.
    + destruct (Hrest x Hx) as [Hin Hne].
      destruct (acc_backed _ _ Hacc x Hin) as (e' & He' & Hu').
      exists e'. split; [|done]. unfold updateCacheIndex.
      rewrite getEntry_set_index. subst st1.
      rewrite getEntry_set_ne; [done|].
      intros Hk. apply Hne. symmetry.
      apply Hfree; [done| |done]. by apply (acc_urls _ _ Hacc).
    + exists e. split; [|done]. unfold updateCacheIndex.
      rewrite getEntry_set_index. apply getEntry_set_eq.
  - intros k e'. unfold updateCacheIndex. unfold setCacheData at 1.
    rewrite lookup_insert. case_decide; [done|].
    subst st1. unfold setCacheData. rewrite lookup_insert.
    case_decide as Hk.
    + intros [= <-]. split; [by rewrite <-Hk|].
      exists new. split; [|done]. apply elem_of_app. right. by left.
    + intros Hk'. destruct (acc_indexed _ _ Hacc _ _ Hk') as (-> & x & Hx & Hxu).
      split; [done|]. exists x. split; [|done].
      apply elem_of_app. left. apply Hkeep; [done|].
      intros Hxu'. apply Hk. unfold storeKey. by rewrite <-Hxu, Hxu'.
  - unfold updateCacheIndex. rewrite stored_sum_set_index.
    + subst st1. unfold setCacheData. rewrite stored_sum_insert.
      rewrite (acc_total _ _ Hacc). reflexivity.
    + intros e'. subst st1. unfold setCacheData. rewrite lookup_insert_ne.
      * by apply accounted_no_entry_at_index.
      * apply storeKey_entry_not_index.
  - red. cbn [entries totalSize]. rewrite sum_sizes_app, Hsum.
    subst new. cbn [sum_sizes foldr rec_size].
    pose proof (acc_consistent _ _ Hacc) as Hc. red in Hc. lia.
Qed.

Lemma accounted_enforce st :
  accounted urls st → accounted urls (enforceCacheSizeLimit st).
Proof.
  intros Hacc.
  destruct (Z.le_gt_cases (totalSize (getCacheIndex st)) MAX_CACHE_SIZE) as [Hle|Hgt].
  { by rewrite enforceCacheSizeLimit_under. }
  destruct (enforceCacheSizeLimit_over st Hgt)
    as (evicted & kept & Hsplit & -> & _ & _).
  pose proof (sort_by_timestamp_perm (entries (getCacheIndex st))) as Hperm.
  rewrite Hsplit in Hperm.
  assert (NoDup (map rec_url (evicted ++ kept))) as Hnd.
  { rewrite Hperm. apply Hacc. }
  assert (∀ x, x ∈ evicted ++ kept → x ∈ entries (getCacheIndex st)) as Hsub.
  { intros x. by rewrite Hperm. }
  assert (NoDup (evicted_keys (evicted ++ kept))) as Hkeys.
  { apply evicted_keys_NoDup; [done|].
    intros x Hx. by apply (acc_urls _ _ Hacc), Hsub. }
  unfold evicted_keys in Hkeys. rewrite map_app in Hkeys.
  apply NoDup_app in Hkeys as (Hkev & Hdisj & _).
  rewrite map_app in Hnd. apply NoDup_app in Hnd as (_ & _ & Hndk).
  split; rewrite ?getCacheIndex_set_index; cbn [entries totalSize].
  - done.
  - intros x Hx. apply (acc_urls _ _ Hacc), Hsub, elem_of_app. by right.
  - intros x Hx.
    destruct (acc_backed _ _ Hacc x) as (e & He & Hu).
    { apply Hsub, elem_of_app. by right. }
    exists e. split; [|done]. rewrite getEntry_set_index.
    unfold getEntry, getCacheData. rewrite lookup_foldl_remove.
    rewrite decide_False; [exact He|].
    intros Hin. apply (Hdisj _ Hin).
    apply list_elem_of_fmap. by exists x.
  - intros k e. unfold setCacheData. rewrite lookup_insert.
    case_decide; [done|]. rewrite lookup_foldl_remove.
    case_decide as Hk; [done|]. intros Hk'.
    destruct (acc_indexed _ _ Hacc _ _ Hk') as (-> & x & Hx & Hxu).
    split; [done|]. exists x. split; [|done].
    rewrite <-Hperm in Hx. apply elem_of_app in Hx as [Hx|Hx]; [|done].
    destruct Hk. unfold evicted_keys. apply list_elem_of_fmap.
    exists x. by rewrite Hxu.
  - rewrite stored_sum_set_index.
    + rewrite stored_sum_foldl_remove.
      * by rewrite (acc_total _ _ Hacc).
      * done.
      * intros x Hx. apply (acc_backed _ _ Hacc), Hsub, elem_of_app. by left.
    + intros e. rewrite lookup_foldl_remove. case_decide; [done|].
      by apply accounted_no_entry_at_index.
  - red. cbn [entries totalSize].
    pose proof (acc_consistent _ _ Hacc) as Hc. red in Hc.
    rewrite <-(sum_sizes_perm _ _ Hperm), sum_sizes_app in Hc. lia.
Qed.

Lemma accounted_cacheResource now now_idx u d ct st :
  u ∈ urls → accounted urls st →
  accounted urls (cacheResource now now_idx u d ct st).
Proof. intros Hu Hacc. by apply accounted_enforce, accounted_write. Qed.

Lemma accounted_step st o :
  (∀ u, u ∈ op_urls o → u ∈ urls) → accounted urls st → accounted urls (step st o).
Proof.
  intros Hu Hacc. destruct o as [now now_idx u d ct|now u|u| |b]; simpl in *.
  - apply accounted_cacheResource; [|done]. apply Hu. by left.
  - unfold getCachedResource.
    destruct (getEntry (getCacheKey u) st) as [e|]; [|done].
    destruct (expiresAt e <? now); [|done].
    apply accounted_removeCachedResource; [|done]. apply Hu. by left.
  - apply accounted_removeCachedResource; [|done]. apply Hu. by left.
  - by apply accounted_clearCache.
  - by apply accounted_setFirstTimeUser.
Qed.

Lemma accounted_run ops st :
  (∀ u, u ∈ ops_urls ops → u ∈ urls) → accounted urls st →
  accounted urls (run ops st).
Proof.
  revert st. induction ops as [|o ops IH]; intros st Hu Hacc; simpl; [done|].
  apply IH.
  - intros u Hin. apply Hu. unfold ops_urls. simpl. apply elem_of_app. by right.
  - apply accounted_step; [|done].
    intros u Hin. apply Hu. unfold ops_urls. simpl. apply elem_of_app. by left.
Qed.

(** Nothing expired: every entry of the store is retrievable. *)
Lemma retrievable_sum_all now st :
  accounted urls st →
  (∀ k e, st !! k = Some (ItemEntry e) → now ≤ expiresAt e) →
  retrievable_sum now st = stored_sum st.
Proof.
  intros Hacc Hlive. unfold retrievable_sum, stored_sum.
  rewrite !map_fold_foldr.
  assert (∀ k it, (k, it) ∈ map_to_list st → st !! k = Some it) as Hin.
  { intros k it. apply elem_of_map_to_list. }
  induction (map_to_list st) as [|[k it] l IH]; [done|].
  cbn [foldr uncurry]. rewrite IH by (intros k' it' ?; apply Hin; by right).
  destruct it as [e| |]; simpl; try lia.
  assert (st !! k = Some (ItemEntry e)) as Hk by (apply Hin; by left).
  destruct (acc_indexed _ _ Hacc _ _ Hk) as [-> _].
  unfold isCached, getCachedResource, getEntry, getCacheData.
  fold (storeKey (getCacheKey (url e))). rewrite Hk.
  specialize (Hlive _ _ Hk).
  by destruct (Z.ltb_spec (expiresAt e) now); [lia|].
Qed.

End Accounting.

(** C3, as stated, fails: an HTML document cached at clock 0 is still
    counted in [getCacheSize] one hour and one millisecond later, when
    no read has deleted it and [getCachedResource] would return [null]
    for it. *)
Lemma size_counts_expired :
  ¬ (∀ ops now, getCacheSize (run ops ∅) = retrievable_sum now (run ops ∅)).
Proof.
  intros H.
  specialize (H [OpCache 0 0 "https://x/a" "AAAAAAAAAA" "text/html"] 3600001).
  vm_compute in H. discriminate.
Qed.

(** C3, amended: after any sequence of cache writes, reads, removals,
    clears and flag writes on an empty store in which no two URLs share a
    storage key, [getCacheSize] is the sum of the [size] fields of the
    entries in the store, expired ones that no read has deleted yet
    included; it is also the sum over the records of the index, and, at a
    clock at which no stored entry has expired, the sum over the
    retrievable entries. *)
Theorem size_is_stored_sum (ops : list Op) :
  collision_free (ops_urls ops) →
  getCacheSize (run ops ∅) = stored_sum (run ops ∅) ∧
  getCacheSize (run ops ∅) = sum_sizes (entries (getCacheIndex (run ops ∅))) ∧
  (∀ now,
     (∀ k e, run ops ∅ !! k = Some (ItemEntry e) → now ≤ expiresAt e) →
     getCacheSize (run ops ∅) = retrievable_sum now (run ops ∅)).
Proof.
  intros Hfree.
  assert (accounted (ops_urls ops) (run ops ∅)) as Hacc.
  { apply accounted_run; [done|done|apply accounted_empty]. }
  split; [apply Hacc|]. split; [apply Hacc|].
  intros now Hlive. rewrite (retrievable_sum_all _ now _ Hacc Hlive).
  apply Hacc.
Qed.

Lemma size_is_stored_sum_witness :
  let ops := [OpCache 0 0 "https://x/a" "AAAAAAAAAA" "text/html";
              OpCache 5 5 "https://x/b" "BBBBBBBBBB" "text/css";
              OpRemove "https://x/a"] in
  getCacheSize (run ops ∅) = stored_sum (run ops ∅).
Proof.
  intros ops. destruct (size_is_stored_sum ops) as [H _]; [|exact H].
  apply collision_free_Forall.
  apply (bool_decide_unpack _). vm_compute. exact I.
Defined.

(** ** Removing a URL that has no backing entry *)

Section Orphans.

Implicit Types (st : Storage) (u : string) (r : IndexRecord).

(** A record whose key holds nothing survives the removal of any URL. *)
Lemma orphan_removeCachedResource u u' r st :
  r ∈ entries (getCacheIndex st) → rec_url r = u →
  getEntry (getCacheKey u) st = None →
  r ∈ entries (getCacheIndex (removeCachedResource u' st)) ∧
  getEntry (getCacheKey u) (removeCachedResource u' st) = None.
Proof.
  intros Hin Hr Hnone. unfold removeCachedResource.
  destruct (getEntry (getCacheKey u') st) as [e|] eqn:He; [|done].
  assert (getCacheKey u' ≠ getCacheKey u) as Hk by congruence.
  assert (u' ≠ u) as Hu by congruence.
  unfold removeFromCacheIndex. rewrite getCacheIndex_remove_entry.
  destruct (splice_url u' (entries (getCacheIndex st))) as [[old rest]|] eqn:Hs.
  - rewrite getCacheIndex_set_index, getEntry_set_index, getEntry_remove_ne by done.
    split; [|done]. cbn [entries].
    destruct (splice_url_Some _ _ _ _ Hs) as (Hold & l1 & l2 & Hl & -> & _).
    rewrite Hl in Hin. apply elem_of_app in Hin as [Hin|Hin].
    + apply elem_of_app. by left.
    + apply elem_of_cons in Hin as [->|Hin]; [congruence|].
      apply elem_of_app. by right.
  - by rewrite getCacheIndex_remove_entry, getEntry_remove_ne.
Qed.

Lemma orphan_step u r st o :
  reads_or_removes o →
  r ∈ entries (getCacheIndex st) → rec_url r = u →
  getEntry (getCacheKey u) st = None →
  r ∈ entries (getCacheIndex (step st o)) ∧
  getEntry (getCacheKey u) (step st o) = None.
Proof.
  intros Ho Hin Hr Hnone.
  destruct o as [now now_idx u' d ct|now u'|u'| |b]; try done; simpl.
  - unfold getCachedResource.
    destruct (getEntry (getCacheKey u') st) as [e|]; [|done].
    destruct (expiresAt e <? now); [|done].
    by apply orphan_removeCachedResource.
  - by apply orphan_removeCachedResource.
Qed.

Lemma orphan_run u r ops st :
  Forall reads_or_removes ops →
  r ∈ entries (getCacheIndex st) → rec_url r = u →
  getEntry (getCacheKey u) st = None →
  r ∈ entries (getCacheIndex (run ops st)) ∧
  getEntry (getCacheKey u) (run ops st) = None.
Proof.
  intros Hops. revert st.
  induction Hops as [|o ops Ho _ IH]; intros st Hin Hr Hnone; [done|].
  simpl. destruct (orphan_step u r st o Ho Hin Hr Hnone) as [Hin' Hnone'].
  by apply IH.
Qed.

(** Reads and removals of a URL whose key holds nothing do nothing. *)
Lemma absent_run u ops st :
  Forall (λ o, reads_or_removes o ∧ op_urls o = [u]) ops →
  getEntry (getCacheKey u) st = None → run ops st = st.
Proof.
  intros Hops Hnone.
  induction Hops as [|o ops [Ho Hu] _ IH]; [done|].
  simpl. assert (step st o = st) as ->; [|exact IH].
  destruct o as [now now_idx u' d ct|now u'|u'| |b]; try done;
    simpl in Hu; injection Hu as Hu; subst u'; simpl.
  - unfold getCachedResource. by rewrite Hnone.
  - unfold removeCachedResource. by rewrite Hnone.
Qed.

(** Over the ceiling, the enforcement drops the oldest record. *)
Lemma enforceCacheSizeLimit_drops_oldest r rest st :
  sort_by_timestamp (entries (getCacheIndex st)) = r :: rest →
  MAX_CACHE_SIZE < totalSize (getCacheIndex st) →
  ∃ evicted, rest = evicted ++ entries (getCacheIndex (enforceCacheSizeLimit st)).
Proof.
  intros Hsort Hover.
  destruct (enforceCacheSizeLimit_over st Hover)
    as (evicted & kept & Hsplit & -> & Hstop & _).
  rewrite getCacheIndex_set_index. cbn [entries].
  rewrite Hsort in Hsplit.
  destruct evicted as [|x evicted].
  - simpl in *. rewrite Z.sub_0_r in Hstop. destruct Hstop as [Hle|Hk]; [lia|].
    by rewrite Hk in Hsplit.
  - injection Hsplit as _ Hrest. by exists evicted.
Qed.

End Orphans.

(** C10, as stated, fails: with only [https://x/Aa] cached, the URL
    [https://x/BB] has no entry in the store, yet its storage key is the
    one of [https://x/Aa], and [removeCachedResource] of it deletes that
    entry. *)
Lemma removeCachedResource_shared_key :
  ¬ (∀ u (st : Storage),
       (∀ k e, st !! k = Some (ItemEntry e) → url e ≠ u) →
       removeCachedResource u st = st).
Proof.
  intros H.
  specialize (H "https://x/BB" (cacheResource 0 0 "https://x/Aa" "aaaa" "text/html" ∅)).
  assert (getEntry (getCacheKey "https://x/BB")
            (removeCachedResource "https://x/BB"
               (cacheResource 0 0 "https://x/Aa" "aaaa" "text/html" ∅))
          = None) as Hgone by (vm_compute; reflexivity).
  rewrite H in Hgone; [vm_compute in Hgone; discriminate|].
  intros k e. unfold cacheResource.
  rewrite enforceCacheSizeLimit_under by (vm_compute; discriminate).
  unfold updateCacheIndex, setCacheData.
  rewrite lookup_insert_Some. intros [[_ [=]]|[_ Hk]].
  apply lookup_insert_Some in Hk as [[_ [= <-]]|[_ Hk]]; [discriminate|].
  by rewrite lookup_empty in Hk.
Qed.

(** C10, amended: when nothing is stored under the storage key of [u]
    (no entry of [u], and none of another URL with that key),
    [removeCachedResource u] leaves the store, and with it the index,
    unchanged, and so does any sequence of removals and reads of [u]: a
    record of the index for [u] without a backing entry and its share
    of [totalSize] are not removed.  Such a record stays in the index
    through any sequence of removals and reads of any URLs;
    [clearCache] drops it with the whole index, and an enforcement over
    the ceiling drops the oldest record, backed by an entry or not. *)
Theorem removeCachedResource_absent (u : string) (st : Storage) :
  getEntry (getCacheKey u) st = None →
  removeCachedResource u st = st ∧
  (∀ ops, Forall (λ o, reads_or_removes o ∧ op_urls o = [u]) ops →
          run ops st = st) ∧
  (∀ r ops, r ∈ entries (getCacheIndex st) → rec_url r = u →
            Forall reads_or_removes ops →
            r ∈ entries (getCacheIndex (run ops st)) ∧
            getEntry (getCacheKey u) (run ops st) = None) ∧
  entries (getCacheIndex (clearCache st)) = [] ∧
  (∀ r rest, sort_by_timestamp (entries (getCacheIndex st)) = r :: rest →
             MAX_CACHE_SIZE < totalSize (getCacheIndex st) →
             ∃ evicted,
               rest = evicted ++ entries (getCacheIndex (enforceCacheSizeLimit st))).
Proof.
  intros H. split; [|split; [|split; [|split]]].
  - unfold removeCachedResource. by rewrite H.
  - intros ops Hops. by apply (absent_run u).
  - intros r ops Hin Hr Hops. by apply orphan_run.
  - unfold getCacheIndex, getCacheData. rewrite clearCache_lookup.
    by rewrite (storeKey_startsWith CACHE_INDEX_KEY).
  - intros r rest Hsort Hover.
    exact (enforceCacheSizeLimit_drops_oldest r rest st Hsort Hover).
Qed.

Lemma removeCachedResource_absent_witness :
  let st : Storage :=
    setCacheData CACHE_INDEX_KEY
      (ItemIndex (mkCacheIndex 10 [mkIndexRecord "https://x/a" 10 0])) ∅ in
  removeCachedResource "https://x/a" st = st ∧
  mkIndexRecord "https://x/a" 10 0
  ∈ entries (getCacheIndex (run [OpRemove "https://x/b"; OpGet 7 "https://x/a"] st)).
Proof.
  intros st.
  destruct (removeCachedResource_absent "https://x/a" st) as (H1 & _ & H3 & _).
  - reflexivity.
  - split; [exact H1|].
    destruct (H3 (mkIndexRecord "https://x/a" 10 0)
                 [OpRemove "https://x/b"; OpGet 7 "https://x/a"]) as [H4 _].
    + apply list_elem_of_here.
    + reflexivity.
    + constructor; [exact I|]. constructor; [exact I|]. constructor.
    + exact H4.
Defined.

(** ** Statistics of an empty cache *)

(** C8, as stated, fails: after two URLs with one storage key have been
    cached and removed in turn, the index has no record left and a
    [totalSize] of 2, which is what [getCacheStats] reports. *)
Lemma getCacheStats_empty_collision :
  ¬ (∀ ops, entries (getCacheIndex (run ops ∅)) = [] →
            getCacheStats (run ops ∅) = mkCacheStats 0 0 Infinity NegInfinity).
Proof.
  intros H. specialize (H collision_history).
  assert (getCacheStats (run collision_history ∅)
          = mkCacheStats 2 0 Infinity NegInfinity) as Hstats
    by (vm_compute; reflexivity).
  rewrite Hstats in H. discriminate H. vm_compute. reflexivity.
Qed.

(** C8, amended: with the index absent, or present with no record,
    [getCacheStats] returns count 0 and the values [Math.min()] and
    [Math.max()] have without an argument, [Infinity] and [-Infinity],
    not [NaN]; its total size is the [totalSize] field of the index,
    which is 0 when the index is absent and, for an index with no
    record, whenever the store was reached from the empty store by
    operations on URLs no two of which share a storage key. *)
Theorem getCacheStats_empty (st : Storage) :
  (getCacheData CACHE_INDEX_KEY st = None ∨
   (∃ i, getCacheData CACHE_INDEX_KEY st = Some (ItemIndex i) ∧ entries i = []) →
   getCacheStats st
   = mkCacheStats (totalSize (getCacheIndex st)) 0 Infinity NegInfinity ∧
   oldestEntry (getCacheStats st) ≠ NaN ∧
   newestEntry (getCacheStats st) ≠ NaN) ∧
  (getCacheData CACHE_INDEX_KEY st = None →
   getCacheStats st = mkCacheStats 0 0 Infinity NegInfinity) ∧
  (∀ ops, st = run ops ∅ → collision_free (ops_urls ops) →
          entries (getCacheIndex st) = [] →
          getCacheStats st = mkCacheStats 0 0 Infinity NegInfinity).
Proof.
  split; [|split].
  - intros H.
    assert (entries (getCacheIndex st) = []) as He.
    { unfold getCacheIndex. by destruct H as [->|(i & -> & Hi)]. }
    unfold getCacheStats. rewrite He. done.
  - intros H. unfold getCacheStats, getCacheIndex. by rewrite H.
  - intros ops -> Hfree He.
    assert (accounted (ops_urls ops) (run ops ∅)) as Hacc.
    { apply accounted_run; [done|done|apply accounted_empty]. }
    pose proof (acc_consistent _ _ Hacc) as Hc. red in Hc. rewrite He in Hc.
    unfold getCacheStats. rewrite He, Hc. reflexivity.
Qed.

Lemma getCacheStats_empty_witness :
  getCacheStats (∅ : Storage) = mkCacheStats 0 0 Infinity NegInfinity ∧
  getCacheStats (run [OpCache 0 0 "https://x/a" "AAAAAAAAAA" "text/html";
                      OpRemove "https://x/a"] ∅)
  = mkCacheStats 0 0 Infinity NegInfinity.
Proof.
  split.
  - destruct (getCacheStats_empty ∅) as (_ & H & _). apply H. reflexivity.
  - destruct (getCacheStats_empty
                (run [OpCache 0 0 "https://x/a" "AAAAAAAAAA" "text/html";
                      OpRemove "https://x/a"] ∅)) as (_ & _ & H).
    apply (H [OpCache 0 0 "https://x/a" "AAAAAAAAAA" "text/html";
              OpRemove "https://x/a"]).
    + reflexivity.
    + apply collision_free_Forall.
      apply (bool_decide_unpack _). vm_compute. exact I.
    + vm_compute. reflexivity.
Defined.

(** ** Offline orchestration *)

Section Offline.

Import PortfolioScreen.

(** The listener changes the screen only: the cache is read by the
    effect that runs again when [isOnline] has changed. *)
Lemma listener_offline wasOnline ns s :
  NetworkService.isOnline ns = false →
  listener wasOnline (NetworkService.toNetworkState ns) s
  = if wasOnline then mkScreen false true (webViewSource s)
    else mkScreen false (showOfflineMessage s) (webViewSource s).
Proof.
  unfold NetworkService.isOnline, NetworkService.getNetworkState, listener.
  intros ->. by destruct wasOnline.
Qed.

Lemma handleOfflineLoad_reads now w :
  cacheReads (handleOfflineLoad now w) = cacheReads w ++ [PORTFOLIO_URL] ∧
  isOnline (screen (handleOfflineLoad now w)) = isOnline (screen w) ∧
  listenerIsOnline (handleOfflineLoad now w) = listenerIsOnline w ∧
  monitor (handleOfflineLoad now w) = monitor w.
Proof.
  unfold handleOfflineLoad.
  destruct (getCachedResource now PORTFOLIO_URL (storage w)) as [c st].
  by destruct (truthy c).
Qed.

(** [handleOfflineLoad], field by field: the read of the portfolio
    URL decides the source and the store. *)
Lemma handleOfflineLoad_spec now w :
  handleOfflineLoad now w
  = mkWorld
      (mkScreen (isOnline (screen w)) true
         (match truthy (getCachedResource now PORTFOLIO_URL (storage w)).1 with
          | Some content => SourceDataUri content
          | None => webViewSource (screen w)
          end))
      (listenerIsOnline w) (monitor w)
      (getCachedResource now PORTFOLIO_URL (storage w)).2
      (cacheReads w ++ [PORTFOLIO_URL]).
Proof.
  unfold handleOfflineLoad.
  destruct (getCachedResource now PORTFOLIO_URL (storage w)) as [c st].
  cbn [fst snd]. by destruct (truthy c).
Qed.

(** Going offline: the world after the listener and the effect. *)
Lemma connectivityCallback_goes_offline fuel now state w :
  isOnline (screen w) = true →
  listenerIsOnline w = true →
  NetworkService.isOnline state = false →
  connectivityCallback (S fuel) now state w
  = handleOfflineLoad now
      (mkWorld (mkScreen false true (webViewSource (screen w))) false state
         (storage w) (cacheReads w)).
Proof.
  intros Hon Hlis Hoff.
  destruct w as [[io som src] lio mon st reads]. cbn in Hon, Hlis. subst io lio.
  unfold connectivityCallback, deliver. cbn [listenerIsOnline screen storage cacheReads].
  rewrite listener_offline by done.
  cbn [flushEffects screen isOnline listenerIsOnline Bool.eqb webViewSource].
  unfold runEffect, checkInitialConnectivity.
  cbn [monitor screen isOnline storage cacheReads listenerIsOnline].
  rewrite Hoff. unfold setIsOnline. cbn [negb showOfflineMessage webViewSource].
  set (w0 := mkWorld (mkScreen false true src) false state st reads).
  destruct (handleOfflineLoad_reads now w0) as (_ & Hio & Hl & _).
  destruct fuel as [|fuel]; [done|].
  cbn [flushEffects]. by rewrite Hio, Hl.
Qed.


(** A second report of a state that is not online, to the listener
    that closed over [isOnline = true]: the setters are called with the
    values the screen has. *)
Lemma deliver_offline_again state w :
  listenerIsOnline w = true →
  NetworkService.isOnline state = false →
  deliver state (deliver state w) = deliver state w.
Proof.
  intros Hlis Hoff. destruct w as [[io som src] lio mon st reads].
  cbn in Hlis. subst lio. unfold deliver.
  cbn [listenerIsOnline screen storage cacheReads].
  by rewrite !listener_offline.
Qed.

End Offline.

(** C7: with the screen online and its listener registered, a callback
    of the monitor that reports a state that is not online leaves the
    screen offline, with the offline message shown, after exactly one
    [getCachedResource], of the portfolio URL (made by the effect that
    the change of [isOnline] runs again): the store is the one that
    read leaves, the source is the page it returned, or the former
    source when it returned [null] or an empty page, and the log of
    reads has one more line.  A second callback with the same state
    changes nothing, no read, no new source, the same world, whether it
    comes after the renders of the first or before them, to the
    listener registered while the screen was online. *)
Theorem offline_transition_once (fuel : nat) (now now' : Z) (state : NetInfoState)
    (w : PortfolioScreen.World) :
  PortfolioScreen.isOnline (PortfolioScreen.screen w) = true →
  PortfolioScreen.listenerIsOnline w = true →
  NetworkService.isOnline state = false →
  let w1 := PortfolioScreen.connectivityCallback (S fuel) now state w in
  let read := getCachedResource now PortfolioScreen.PORTFOLIO_URL (PortfolioScreen.storage w) in
  PortfolioScreen.isOnline (PortfolioScreen.screen w1) = false ∧
  PortfolioScreen.showOfflineMessage (PortfolioScreen.screen w1) = true ∧
  PortfolioScreen.storage w1 = read.2 ∧
  PortfolioScreen.webViewSource (PortfolioScreen.screen w1)
  = match PortfolioScreen.truthy read.1 with
    | Some content => PortfolioScreen.SourceDataUri content
    | None => PortfolioScreen.webViewSource (PortfolioScreen.screen w)
    end ∧
  PortfolioScreen.cacheReads w1
  = PortfolioScreen.cacheReads w ++ [PortfolioScreen.PORTFOLIO_URL] ∧
  PortfolioScreen.connectivityCallback (S fuel) now' state w1 = w1 ∧
  PortfolioScreen.deliver state (PortfolioScreen.deliver state w)
  = PortfolioScreen.deliver state w ∧
  PortfolioScreen.flushEffects (S fuel) now
    (PortfolioScreen.deliver state (PortfolioScreen.deliver state w)) = w1.
Proof.
  intros Hon Hlis Hoff. cbv zeta.
  assert (PortfolioScreen.deliver state (PortfolioScreen.deliver state w)
          = PortfolioScreen.deliver state w) as Hagain
    by (by apply deliver_offline_again).
  assert (PortfolioScreen.flushEffects (S fuel) now
            (PortfolioScreen.deliver state (PortfolioScreen.deliver state w))
          = PortfolioScreen.connectivityCallback (S fuel) now state w) as Hstale
    by (by rewrite Hagain).
  rewrite Hstale.
  rewrite (connectivityCallback_goes_offline fuel now state w Hon Hlis Hoff).
  rewrite handleOfflineLoad_spec.
  cbn [PortfolioScreen.screen PortfolioScreen.isOnline PortfolioScreen.showOfflineMessage
       PortfolioScreen.webViewSource PortfolioScreen.storage PortfolioScreen.cacheReads
       PortfolioScreen.listenerIsOnline PortfolioScreen.monitor].
  repeat (split; [reflexivity|]). split; [|split; [exact Hagain|reflexivity]].
  unfold PortfolioScreen.connectivityCallback, PortfolioScreen.deliver.
  cbn [PortfolioScreen.listenerIsOnline PortfolioScreen.screen PortfolioScreen.storage
       PortfolioScreen.cacheReads].
  rewrite listener_offline by done. reflexivity.
Qed.

Lemma offline_transition_once_witness :
  let offline := mkNetInfoState (Some false) (Some false) "none" in
  let w := PortfolioScreen.mkWorld
             (PortfolioScreen.mkScreen true false
                (PortfolioScreen.SourceUri PortfolioScreen.PORTFOLIO_URL))
             true (mkNetInfoState (Some true) (Some true) "wifi")
             (cacheResource 0 0 PortfolioScreen.PORTFOLIO_URL "<html>hi</html>"
                "text/html" ∅)
             [] in
  let w1 := PortfolioScreen.connectivityCallback 2 1000 offline w in
  PortfolioScreen.webViewSource (PortfolioScreen.screen w1)
  = PortfolioScreen.SourceDataUri "<html>hi</html>" ∧
  PortfolioScreen.cacheReads w1 = [PortfolioScreen.PORTFOLIO_URL] ∧
  PortfolioScreen.connectivityCallback 2 2000 offline w1 = w1.
Proof.
  intros offline w w1.
  destruct (offline_transition_once 1 1000 2000 offline w)
    as (_ & _ & _ & Hsrc & Hreads & Hsame & _);
    [reflexivity|reflexivity|reflexivity|].
  split; [|split; [exact Hreads|exact Hsame]].
  fold w1 in Hsrc. rewrite Hsrc. vm_compute. reflexivity.
Defined.


(** * Further properties of the cache *)

Section CacheFrame.

Implicit Types (st : Storage) (k u : string).

Lemma not_prefixed_ne k key :
  startsWith k CACHE_PREFIX = false → CACHE_PREFIX +:+ key ≠ k.
Proof. intros Hk <-. by rewrite storeKey_startsWith in Hk. Qed.

Lemma setCacheData_frame k key v st :
  startsWith k CACHE_PREFIX = false → setCacheData key v st !! k = st !! k.
Proof. intros Hk. unfold setCacheData. by rewrite lookup_insert_ne by by apply not_prefixed_ne. Qed.

Lemma removeCacheData_frame k key st :
  startsWith k CACHE_PREFIX = false → removeCacheData key st !! k = st !! k.
Proof. intros Hk. unfold removeCacheData. by rewrite lookup_delete_ne by by apply not_prefixed_ne. Qed.

Lemma removeCachedResource_frame k u st :
  startsWith k CACHE_PREFIX = false → removeCachedResource u st !! k = st !! k.
Proof.
  intros Hk. unfold removeCachedResource.
  destruct (getEntry (getCacheKey u) st) as [e|]; [|done].
  unfold removeFromCacheIndex.
  destruct (splice_url _ _) as [[old rest]|].
  - by rewrite setCacheData_frame, removeCacheData_frame.
  - by rewrite removeCacheData_frame.
Qed.

Lemma getCachedResource_frame k now u st :
  startsWith k CACHE_PREFIX = false → (getCachedResource now u st).2 !! k = st !! k.
Proof.
  intros Hk. unfold getCachedResource.
  destruct (getEntry (getCacheKey u) st) as [e|]; [|done].
  destruct (expiresAt e <? now); [|done]. by apply removeCachedResource_frame.
Qed.

Lemma enforceCacheSizeLimit_frame k st :
  startsWith k CACHE_PREFIX = false → enforceCacheSizeLimit st !! k = st !! k.
Proof.
  intros Hk.
  destruct (Z.le_gt_cases (totalSize (getCacheIndex st)) MAX_CACHE_SIZE) as [Hle|Hgt].
  { by rewrite enforceCacheSizeLimit_under. }
  destruct (enforceCacheSizeLimit_over st Hgt) as (evicted & kept & _ & -> & _).
  rewrite setCacheData_frame by done. rewrite lookup_foldl_remove.
  rewrite decide_False; [done|].
  unfold evicted_keys. intros (r & -> & _)%list_elem_of_fmap.
  unfold storeKey in Hk. by rewrite storeKey_startsWith in Hk.
Qed.

Lemma cacheResource_frame k now now_idx u d ct st :
  startsWith k CACHE_PREFIX = false → cacheResource now now_idx u d ct st !! k = st !! k.
Proof.
  intros Hk. unfold cacheResource, updateCacheIndex.
  by rewrite enforceCacheSizeLimit_frame, !setCacheData_frame.
Qed.

End CacheFrame.

(** X1: no operation of the cache reads or writes outside its
    namespace: a key of the shared store that does not start with
    [cache_] holds the same value after [cacheResource] (its eviction
    included), [getCachedResource] (its lazy deletion included),
    [removeCachedResource] and [clearCache]. *)
Theorem cache_operations_frame (k : string) (st : Storage) :
  startsWith k CACHE_PREFIX = false →
  (∀ now now_idx u d ct, cacheResource now now_idx u d ct st !! k = st !! k) ∧
  (∀ now u, (getCachedResource now u st).2 !! k = st !! k) ∧
  (∀ u, removeCachedResource u st !! k = st !! k) ∧
  clearCache st !! k = st !! k.
Proof.
  intros Hk. repeat split; intros.
  - by apply cacheResource_frame.
  - by apply getCachedResource_frame.
  - by apply removeCachedResource_frame.
  - by rewrite clearCache_lookup, Hk.
Qed.

Lemma cache_operations_frame_witness :
  let st := setFirstTimeUser false ∅ in
  cacheResource 0 0 "https://x/a" "AAAAAAAAAA" "text/html" st !! FIRST_TIME_USER_KEY
  = Some (ItemOther "false").
Proof.
  intros st.
  destruct (cache_operations_frame FIRST_TIME_USER_KEY st) as (H & _); [reflexivity|].
  rewrite H. reflexivity.
Defined.

Section IndexShape.

Implicit Types (st : Storage) (u : string).

Lemma updateCacheIndex_NoDup now_idx u sz st :
  NoDup (map rec_url (entries (getCacheIndex st))) →
  NoDup (map rec_url (entries (getCacheIndex (updateCacheIndex now_idx u sz st)))).
Proof.
  intros Hnd. rewrite getCacheIndex_updateCacheIndex.
  destruct (splice_url u (entries (getCacheIndex st))) as [[old rest]|] eqn:Hs;
    cbn [entries]; rewrite map_app; apply NoDup_app.
  - destruct (splice_url_NoDup _ _ _ _ Hs Hnd) as [Hrest Hne].
    split; [done|]. split; [|by apply NoDup_singleton].
    intros x (y & -> & Hy)%list_elem_of_fmap Hx. cbn in Hx.
    apply list_elem_of_singleton in Hx.
    by apply (proj1 (Forall_forall _ _) Hne y Hy).
  - apply splice_url_None in Hs.
    split; [done|]. split; [|by apply NoDup_singleton].
    intros x (y & -> & Hy)%list_elem_of_fmap Hx. cbn in Hx.
    apply list_elem_of_singleton in Hx.
    by apply (proj1 (Forall_forall _ _) Hs y Hy).
Qed.

Lemma enforceCacheSizeLimit_NoDup st :
  NoDup (map rec_url (entries (getCacheIndex st))) →
  NoDup (map rec_url (entries (getCacheIndex (enforceCacheSizeLimit st)))).
Proof.
  intros Hnd.
  destruct (Z.le_gt_cases (totalSize (getCacheIndex st)) MAX_CACHE_SIZE) as [Hle|Hgt].
  { by rewrite enforceCacheSizeLimit_under. }
  destruct (enforceCacheSizeLimit_over st Hgt) as (evicted & kept & Hsplit & -> & _).
  rewrite getCacheIndex_set_index. cbn [entries].
  rewrite <-(sort_by_timestamp_perm (entries (getCacheIndex st))), Hsplit, map_app in Hnd.
  by apply NoDup_app in Hnd as (_ & _ & Hk).
Qed.

Lemma removeCachedResource_NoDup u st :
  NoDup (map rec_url (entries (getCacheIndex st))) →
  NoDup (map rec_url (entries (getCacheIndex (removeCachedResource u st)))).
Proof.
  intros Hnd. unfold removeCachedResource.
  destruct (getEntry (getCacheKey u) st) as [e|]; [|done].
  unfold removeFromCacheIndex. rewrite getCacheIndex_remove_entry.
  destruct (splice_url u (entries (getCacheIndex st))) as [[old rest]|] eqn:Hs.
  - rewrite getCacheIndex_set_index. cbn [entries].
    by destruct (splice_url_NoDup _ _ _ _ Hs Hnd).
  - by rewrite getCacheIndex_remove_entry.
Qed.

Lemma step_NoDup st o :
  NoDup (map rec_url (entries (getCacheIndex st))) →
  NoDup (map rec_url (entries (getCacheIndex (step st o)))).
Proof.
  intros Hnd. destruct o as [now now_idx u d ct|now u|u| |b]; simpl.
  - unfold cacheResource. apply enforceCacheSizeLimit_NoDup, updateCacheIndex_NoDup.
    by rewrite getCacheIndex_set_entry.
  - unfold getCachedResource.
    destruct (getEntry (getCacheKey u) st) as [e|]; [|done].
    destruct (expiresAt e <? now); [|done]. by apply removeCachedResource_NoDup.
  - by apply removeCachedResource_NoDup.
  - unfold getCacheIndex, getCacheData. rewrite clearCache_lookup.
    rewrite (storeKey_startsWith CACHE_INDEX_KEY). constructor.
  - by rewrite getCacheIndex_setFirstTimeUser.
Qed.

Lemma getEntry_removeCachedResource u st :
  getEntry (getCacheKey u) (removeCachedResource u st) = None.
Proof.
  unfold removeCachedResource.
  destruct (getEntry (getCacheKey u) st) as [e|] eqn:He; [|done].
  unfold removeFromCacheIndex.
  destruct (splice_url _ _) as [[old rest]|].
  - rewrite getEntry_set_index. apply getEntry_remove_eq.
  - apply getEntry_remove_eq.
Qed.

End IndexShape.

(** X2: whatever the operations on an empty store, hash collisions
    included, the index never holds two records for one URL: a write
    replaces the record of its URL, and eviction and removal only take
    records out. *)
Theorem index_one_record_per_url (ops : list Op) :
  NoDup (map rec_url (entries (getCacheIndex (run ops ∅)))).
Proof.
  assert (∀ st, NoDup (map rec_url (entries (getCacheIndex st))) →
                NoDup (map rec_url (entries (getCacheIndex (run ops st))))) as H.
  { induction ops as [|o ops IH]; intros st Hnd; simpl; [done|].
    by apply IH, step_NoDup. }
  apply H. unfold getCacheIndex, getCacheData. rewrite lookup_empty. constructor.
Qed.

(** X3: [removeCachedResource] is idempotent, and after it the URL
    reads as [null] at any clock, the read changing nothing. *)
Theorem removeCachedResource_idempotent (u : string) (st : Storage) :
  removeCachedResource u (removeCachedResource u st) = removeCachedResource u st ∧
  ∀ now, getCachedResource now u (removeCachedResource u st)
         = (None, removeCachedResource u st).
Proof.
  split.
  - unfold removeCachedResource at 1. by rewrite getEntry_removeCachedResource.
  - intros now. unfold getCachedResource. by rewrite getEntry_removeCachedResource.
Qed.

(** X4: a read that returned [null] has left no entry behind: any
    later read of the URL, at any clock, returns [null] again and leaves
    the store as it is. *)
Theorem null_read_is_final (now now' : Z) (u : string) (st : Storage) :
  (getCachedResource now u st).1 = None →
  getCachedResource now' u (getCachedResource now u st).2
  = (None, (getCachedResource now u st).2).
Proof.
  assert (getCachedResource now u st = (None, (getCachedResource now u st).2) →
          getEntry (getCacheKey u) (getCachedResource now u st).2 = None) as Hgone.
  { unfold getCachedResource.
    destruct (getEntry (getCacheKey u) st) as [e|] eqn:He; [|done].
    destruct (expiresAt e <? now); [|done]. intros _. cbn [snd].
    apply getEntry_removeCachedResource. }
  intros Hnull.
  unfold getCachedResource at 1. rewrite Hgone; [done|].
  destruct (getCachedResource now u st) as [r st']. cbn in Hnull. by subst r.
Qed.

Lemma null_read_is_final_witness :
  let st := cacheResource 0 0 "https://x/a" "AAAAAAAAAA" "text/html" ∅ in
  getCachedResource 0 "https://x/a" (getCachedResource 3600001 "https://x/a" st).2
  = (None, (getCachedResource 3600001 "https://x/a" st).2).
Proof.
  intros st. apply null_read_is_final. vm_compute. reflexivity.
Defined.

(** X5: the size enforcement is idempotent: run on its own result it
    changes nothing, whatever the store. *)
Theorem enforceCacheSizeLimit_idempotent (st : Storage) :
  enforceCacheSizeLimit (enforceCacheSizeLimit st) = enforceCacheSizeLimit st.
Proof.
  destruct (Z.le_gt_cases (totalSize (getCacheIndex st)) MAX_CACHE_SIZE) as [Hle|Hgt].
  { rewrite (enforceCacheSizeLimit_under st Hle). by apply enforceCacheSizeLimit_under. }
  destruct (enforceCacheSizeLimit_over st Hgt) as (evicted & kept & _ & -> & Hstop & _).
  set (total := totalSize (getCacheIndex st) - sum_sizes evicted) in *.
  set (st' := foldl (λ s r, removeCacheData (getCacheKey (rec_url r)) s) st evicted).
  destruct (Z.le_gt_cases total MAX_CACHE_SIZE) as [Hle|Hgt'].
  { apply enforceCacheSizeLimit_under. by rewrite getCacheIndex_set_index. }
  destruct Hstop as [?| ->]; [lia|].
  unfold enforceCacheSizeLimit. rewrite getCacheIndex_set_index. cbn.
  destruct (Z.leb_spec total MAX_CACHE_SIZE); [lia|].
  unfold setCacheData. apply insert_insert_eq.
Qed.

Section LastWrite.

Implicit Types (st : Storage) (u : string) (l : list IndexRecord).

Lemma splice_url_app_last u l r :
  Forall (λ x, rec_url x ≠ u) l → rec_url r = u →
  splice_url u (l ++ [r]) = Some (r, l).
Proof.
  intros Hl Hr. induction Hl as [|x l Hx Hl IH]; simpl.
  - by rewrite (proj2 (String.eqb_eq _ _) Hr).
  - rewrite (proj2 (String.eqb_neq _ _) Hx). by rewrite IH.
Qed.

Lemma updateCacheIndex_written now_idx u sz st :
  updateCacheIndex now_idx u sz st
  = setCacheData CACHE_INDEX_KEY
      (ItemIndex (getCacheIndex (updateCacheIndex now_idx u sz st))) st.
Proof. unfold updateCacheIndex. by rewrite getCacheIndex_set_index. Qed.

End LastWrite.

(** X6: the last write wins.  In a store whose index has one record per
    URL and no negative size, a write of a URL that fits under the
    ceiling followed by a second write of the same URL leaves the store
    the second write alone would leave: the first entry, its record and
    its share of the total are gone. *)
Theorem last_write_wins (n1 i1 n2 i2 : Z) (u d1 c1 d2 c2 : string) (st : Storage) :
  NoDup (map rec_url (entries (getCacheIndex st))) →
  Forall (λ r, 0 ≤ rec_size r) (entries (getCacheIndex st)) →
  getCacheSize st + Z.of_nat (String.length d1) ≤ MAX_CACHE_SIZE →
  cacheResource n2 i2 u d2 c2 (cacheResource n1 i1 u d1 c1 st)
  = cacheResource n2 i2 u d2 c2 st.
Proof.
  intros Hnd Hpos Hfit. unfold cacheResource.
  set (e1 := newEntry n1 u d1 c1). set (e2 := newEntry n2 u d2 c2).
  set (stA := setCacheData (getCacheKey u) (ItemEntry e1) st).
  set (stB := updateCacheIndex i1 u (size e1) stA).
  (* the index after the first update *)
  assert (∃ base rest,
    getCacheIndex stB = mkCacheIndex (base + size e1) (rest ++ [mkIndexRecord u (size e1) i1]) ∧
    Forall (λ x, rec_url x ≠ u) rest ∧ base ≤ getCacheSize st ∧
    getCacheIndex (updateCacheIndex i2 u (size e2)
                     (setCacheData (getCacheKey u) (ItemEntry e2) st))
    = mkCacheIndex (base + size e2) (rest ++ [mkIndexRecord u (size e2) i2]))
    as (base & rest & HiB & Hrest & Hbase & Hdirect).
  { subst stB stA. rewrite !getCacheIndex_updateCacheIndex, !getCacheIndex_set_entry.
    destruct (splice_url u (entries (getCacheIndex st))) as [[old rest]|] eqn:Hs.
    - exists (totalSize (getCacheIndex st) - rec_size old), rest.
      destruct (splice_url_NoDup _ _ _ _ Hs Hnd) as [_ Hne].
      repeat split; [done|].
      pose proof (proj1 (Forall_forall _ _) Hpos old (splice_url_head _ _ _ _ Hs)) as Hold.
      cbn beta in Hold. unfold getCacheSize. lia.
    - exists (totalSize (getCacheIndex st)), (entries (getCacheIndex st)).
      apply splice_url_None in Hs. repeat split; [done|]. unfold getCacheSize. lia. }
  assert (enforceCacheSizeLimit stB = stB) as ->.
  { apply enforceCacheSizeLimit_under. rewrite HiB. cbn [totalSize].
    subst e1. cbn [size newEntry]. lia. }
  f_equal.
  rewrite (updateCacheIndex_written i2 u (size e2)
             (setCacheData (getCacheKey u) (ItemEntry e2) stB)).
  rewrite (updateCacheIndex_written i2 u (size e2)
             (setCacheData (getCacheKey u) (ItemEntry e2) st)).
  rewrite Hdirect.
  rewrite getCacheIndex_updateCacheIndex, getCacheIndex_set_entry, HiB.
  cbn [entries totalSize].
  rewrite (splice_url_app_last u rest) by done. cbn [rec_size].
  replace (base + size e1 - size e1 + size e2) with (base + size e2) by lia.
  subst stB. rewrite (updateCacheIndex_written i1 u (size e1) stA). subst stA.
  unfold setCacheData. apply map_eq. intros k.
  rewrite !lookup_insert. by repeat case_decide.
Qed.

Lemma last_write_wins_witness :
  cacheResource 5 5 "https://x/a" "second" "text/html"
    (cacheResource 0 0 "https://x/a" "first" "text/css" ∅)
  = cacheResource 5 5 "https://x/a" "second" "text/html" ∅.
Proof.
  apply (last_write_wins 0 0 5 5 "https://x/a" "first" "text/css" "second" "text/html" ∅).
  - apply (bool_decide_unpack _). vm_compute. exact I.
  - apply (bool_decide_unpack _). vm_compute. exact I.
  - vm_compute. discriminate.
Defined.

Section Stats.

Lemma Math_min_spec (x : Z) (l : list Z) :
  ∃ m, Math_min (x :: l) = Num m ∧ m ∈ x :: l ∧ Forall (λ y, m ≤ y) (x :: l).
Proof.
  revert x. induction l as [|y l IH]; intros x.
  - exists x. split; [done|]. split; [by left|].
    constructor; [lia|constructor].
  - destruct (IH y) as (m & Hm & Hin & Hall).
    exists (Z.min x m). unfold Math_min in *. cbn [foldr] in *. rewrite Hm.
    split; [done|]. split.
    + destruct (Z.min_spec x m) as [[_ ->]|[_ ->]]; [by left|by right].
    + constructor; [lia|].
      eapply Forall_impl; [exact Hall|]. intros z Hz. cbn beta in Hz. lia.
Qed.

Lemma Math_max_spec (x : Z) (l : list Z) :
  ∃ m, Math_max (x :: l) = Num m ∧ m ∈ x :: l ∧ Forall (λ y, y ≤ m) (x :: l).
Proof.
  revert x. induction l as [|y l IH]; intros x.
  - exists x. split; [done|]. split; [by left|].
    constructor; [lia|constructor].
  - destruct (IH y) as (m & Hm & Hin & Hall).
    exists (Z.max x m). unfold Math_max in *. cbn [foldr] in *. rewrite Hm.
    split; [done|]. split.
    + destruct (Z.max_spec x m) as [[_ ->]|[_ ->]]; [by right|by left].
    + constructor; [lia|].
      eapply Forall_impl; [exact Hall|]. intros z Hz. cbn beta in Hz. lia.
Qed.

End Stats.

(** X7: with at least one record in the index, [getCacheStats] reports
    as oldest and newest the timestamps of two records, every record
    lying between them; the count is the number of records. *)
Theorem getCacheStats_oldest_newest (st : Storage) :
  entries (getCacheIndex st) ≠ [] →
  ∃ lo hi,
    oldestEntry (getCacheStats st) = Num lo ∧
    newestEntry (getCacheStats st) = Num hi ∧
    (∃ r, r ∈ entries (getCacheIndex st) ∧ rec_timestamp r = lo) ∧
    (∃ r, r ∈ entries (getCacheIndex st) ∧ rec_timestamp r = hi) ∧
    (∀ r, r ∈ entries (getCacheIndex st) → lo ≤ rec_timestamp r ≤ hi) ∧
    entryCount (getCacheStats st) = length (entries (getCacheIndex st)).
Proof.
  intros Hne. unfold getCacheStats. cbn.
  destruct (entries (getCacheIndex st)) as [|r0 l]; [done|]. cbn [map].
  destruct (Math_min_spec (rec_timestamp r0) (map rec_timestamp l)) as (lo & Hlo & Hlin & Hlall).
  destruct (Math_max_spec (rec_timestamp r0) (map rec_timestamp l)) as (hi & Hhi & Hhin & Hhall).
  exists lo, hi. split; [done|]. split; [done|].
  change (rec_timestamp r0 :: map rec_timestamp l) with (map rec_timestamp (r0 :: l)) in *.
  split.
  { apply list_elem_of_fmap in Hlin as (r & -> & Hr). by exists r. }
  split.
  { apply list_elem_of_fmap in Hhin as (r & -> & Hr). by exists r. }
  split; [|done].
  intros r Hr. split.
  - apply (proj1 (Forall_forall _ _) Hlall). by apply list_elem_of_fmap_2.
  - apply (proj1 (Forall_forall _ _) Hhall). by apply list_elem_of_fmap_2.
Qed.

Lemma getCacheStats_oldest_newest_witness :
  let st := cacheResource 7 8 "https://x/b" "BBBBBBBBBB" "text/css"
              (cacheResource 3 4 "https://x/a" "AAAAAAAAAA" "text/html" ∅) in
  ∃ lo hi, oldestEntry (getCacheStats st) = Num lo ∧
           newestEntry (getCacheStats st) = Num hi.
Proof.
  intros st. destruct (getCacheStats_oldest_newest st) as (lo & hi & Hlo & Hhi & _).
  - vm_compute. discriminate.
  - exists lo, hi. split; [exact Hlo|exact Hhi].
Defined.

(** X8: after any operations on an empty store in which no two URLs
    share a storage key, the reported size is never negative and never
    above the ceiling. *)
Theorem getCacheSize_bounds (ops : list Op) :
  collision_free (ops_urls ops) →
  0 ≤ getCacheSize (run ops ∅) ≤ MAX_CACHE_SIZE.
Proof.
  intros Hfree.
  assert (accounted (ops_urls ops) (run ops ∅)) as Hacc.
  { apply accounted_run; [done|done|apply accounted_empty]. }
  destruct (within_limit_run ops ∅ within_limit_empty) as (Hmax & Hpos & _).
  split; [|exact Hmax].
  unfold getCacheSize. rewrite (acc_consistent _ _ Hacc).
  by apply sum_sizes_nonneg.
Qed.

Lemma getCacheSize_bounds_witness :
  let ops := [OpCache 0 0 "https://x/a" "AAAAAAAAAA" "text/html";
              OpGet 3600001 "https://x/a"] in
  0 ≤ getCacheSize (run ops ∅) ≤ MAX_CACHE_SIZE.
Proof.
  intros ops. apply (getCacheSize_bounds ops).
  apply collision_free_Forall.
  apply (bool_decide_unpack _). vm_compute. exact I.
Defined.

(** X9: after any operations on an empty store in which no two URLs
    share a storage key, index and store agree: a URL has a record in
    the index exactly when an entry is stored under its key, and then
    the entry is the entry of that URL, with the size of the record. *)
Theorem index_matches_store (ops : list Op) (u : string) :
  collision_free (ops_urls ops) →
  u ∈ ops_urls ops →
  ((∃ r, r ∈ entries (getCacheIndex (run ops ∅)) ∧ rec_url r = u) ↔
   is_Some (getEntry (getCacheKey u) (run ops ∅))) ∧
  (∀ r e, r ∈ entries (getCacheIndex (run ops ∅)) → rec_url r = u →
          getEntry (getCacheKey u) (run ops ∅) = Some e →
          url e = u ∧ size e = rec_size r).
Proof.
  intros Hfree Hu.
  assert (accounted (ops_urls ops) (run ops ∅)) as Hacc.
  { apply accounted_run; [done|done|apply accounted_empty]. }
  split; [split|].
  - intros (r & Hr & <-). destruct (acc_backed _ _ Hacc r Hr) as (e & He & _). by exists e.
  - intros [e He]. unfold getEntry, getCacheData in He.
    destruct (run ops ∅ !! (CACHE_PREFIX +:+ getCacheKey u)) as [[e'| |]|] eqn:Hk; try done.
    destruct (acc_indexed _ _ Hacc _ _ Hk) as (Hkey & r & Hr & Hru).
    exists r. split; [done|]. rewrite Hru. apply Hfree; [|done|].
    + rewrite <-Hru. by apply (acc_urls _ _ Hacc).
    + symmetry. by apply storeKey_inj in Hkey.
  - intros r e Hr <- He.
    destruct (acc_backed _ _ Hacc r Hr) as (e' & He' & Hurl & Hsz).
    rewrite He in He'. by injection He' as <-.
Qed.

Lemma index_matches_store_witness :
  let ops := [OpCache 0 0 "https://x/a" "AAAAAAAAAA" "text/html";
              OpCache 5 5 "https://x/b" "BBBBBBBBBB" "text/css";
              OpRemove "https://x/a"] in
  (∃ r, r ∈ entries (getCacheIndex (run ops ∅)) ∧ rec_url r = "https://x/b") ↔
  is_Some (getEntry (getCacheKey "https://x/b") (run ops ∅)).
Proof.
  intros ops. destruct (index_matches_store ops "https://x/b") as [H _]; [| |exact H].
  - apply collision_free_Forall.
    apply (bool_decide_unpack _). vm_compute. exact I.
  - apply (bool_decide_unpack _). vm_compute. exact I.
Defined.

(** * The first-time-user flag and the first screens *)

Section Onboarding.

Implicit Types (st : Storage) (ops : list Op).

Lemma step_frame st o k :
  cache_op o → startsWith k CACHE_PREFIX = false → step st o !! k = st !! k.
Proof.
  intros Ho Hk. destruct o as [now now_idx u d ct|now u|u| |b]; simpl.
  - by apply cacheResource_frame.
  - by apply getCachedResource_frame.
  - by apply removeCachedResource_frame.
  - by rewrite clearCache_lookup, Hk.
  - done.
Qed.

Lemma run_frame ops st k :
  Forall cache_op ops → startsWith k CACHE_PREFIX = false → run ops st !! k = st !! k.
Proof.
  intros Hops Hk. revert st. induction Hops as [|o ops Ho Hops IH]; intros st; simpl; [done|].
  by rewrite IH, step_frame.
Qed.

Lemma isFirstTimeUser_run ops st :
  Forall cache_op ops → isFirstTimeUser (run ops st) = isFirstTimeUser st.
Proof. intros Hops. unfold isFirstTimeUser. by rewrite run_frame. Qed.

End Onboarding.

(** X10: the flag round trip.  [isFirstTimeUser] answers [true] on a
    store without the flag and, after [setFirstTimeUser v], answers [v];
    no sequence of cache operations (writes, reads, removals, clears,
    evictions) changes the answer. *)
Theorem first_time_flag_round_trip (ops : list Op) (st : Storage) :
  Forall cache_op ops →
  (st !! FIRST_TIME_USER_KEY = None → isFirstTimeUser (run ops st) = Some true) ∧
  (∀ v, isFirstTimeUser (run ops (setFirstTimeUser v st)) = Some v).
Proof.
  intros Hops. split.
  - intros Hno. rewrite isFirstTimeUser_run by done. unfold isFirstTimeUser. by rewrite Hno.
  - intros v. rewrite isFirstTimeUser_run by done.
    unfold isFirstTimeUser, setFirstTimeUser. rewrite lookup_insert_eq. by destruct v.
Qed.

Lemma first_time_flag_round_trip_witness :
  isFirstTimeUser
    (run [OpCache 0 0 "https://x/a" "AAAAAAAAAA" "text/html"; OpClear]
       (setFirstTimeUser false ∅))
  = Some false.
Proof.
  destruct (first_time_flag_round_trip
              [OpCache 0 0 "https://x/a" "AAAAAAAAAA" "text/html"; OpClear] ∅) as [_ H].
  - repeat constructor.
  - apply H.
Defined.

(** X11: the first launch goes to the start screen, and keeps going
    there whatever the cache does; once [handleGetStarted] has run,
    every later launch goes to the portfolio, whatever the cache does in
    between, [clearCache] included. *)
Theorem onboarding_routes (ops : list Op) (st : Storage) :
  Forall cache_op ops →
  checkFirstTimeUserAndNavigate (run ops ∅) = Some "/start" ∧
  (handleGetStarted st).2 = "/portfolio" ∧
  checkFirstTimeUserAndNavigate (run ops (handleGetStarted st).1) = Some "/portfolio".
Proof.
  intros Hops. unfold checkFirstTimeUserAndNavigate.
  rewrite !isFirstTimeUser_run by done. repeat split.
  unfold handleGetStarted, isFirstTimeUser, setFirstTimeUser. cbn [fst].
  by rewrite lookup_insert_eq.
Qed.

Lemma onboarding_routes_witness :
  checkFirstTimeUserAndNavigate
    (run [OpCache 0 0 "https://x/a" "AAAAAAAAAA" "text/html"; OpClear]
       (handleGetStarted ∅).1)
  = Some "/portfolio".
Proof.
  destruct (onboarding_routes
              [OpCache 0 0 "https://x/a" "AAAAAAAAAA" "text/html"; OpClear] ∅)
    as (_ & _ & H).
  - repeat constructor.
  - exact H.
Defined.

(** * The error handlers *)

Section ErrorLog.

Import ErrorHandler.

Implicit Types (s : State) (e : AppError) (c : ErrorCall).

Lemma logError_log e s :
  errorLog (logError e s)
  = if (MAX_ERROR_LOG_SIZE <? length (errorLog s ++ [e]))%nat
    then tail (errorLog s ++ [e]) else errorLog s ++ [e].
Proof. reflexivity. Qed.

Lemma logError_last e s : last (errorLog (logError e s)) = Some e.
Proof.
  rewrite logError_log.
  destruct (Nat.ltb_spec MAX_ERROR_LOG_SIZE (length (errorLog s ++ [e]))) as [Hlt|_];
    [|apply last_snoc].
  destruct (errorLog s) as [|x l].
  - unfold MAX_ERROR_LOG_SIZE in Hlt. cbn in Hlt. lia.
  - cbn [app tail]. apply last_snoc.
Qed.

Lemma logError_alerts e s : alerts (logError e s) = alerts s.
Proof. reflexivity. Qed.

(** The error a call makes and logs. *)
Lemma handleCall_logs c s :
  ∃ e s',
    handleCall c s = Some s' ∧
    errorLog s' = errorLog (logError e s) ∧
    err_type e = call_type c ∧ err_timestamp e = call_clock c.
Proof.
  destruct c as [now err ctx|now err ctx|now err ctx|now err ctx|now err ctx]; cbn.
  - eexists _, _. by split; [reflexivity|].
  - eexists _, _. by split; [reflexivity|].
  - unfold handleCacheError.
    destruct (operation err); eexists _, _; by split; [reflexivity|].
  - eexists _, _. by split; [reflexivity|].
  - eexists _, _. by split; [reflexivity|].
Qed.

(** The log after a [logError], when it held the last 100 of [all]. *)
Lemma logError_window (all : list AppError) e s :
  errorLog s = drop (length all - MAX_ERROR_LOG_SIZE) all →
  errorLog (logError e s)
  = drop (length (all ++ [e]) - MAX_ERROR_LOG_SIZE) (all ++ [e]).
Proof.
  intros Hlog. rewrite logError_log, Hlog.
  unfold MAX_ERROR_LOG_SIZE in *.
  rewrite !length_app, length_drop. cbn [length].
  destruct (Nat.ltb_spec 100 (length all - (length all - 100) + 1)) as [Hlt|Hge].
  - assert (100 ≤ length all)%nat as Hlen by lia.
    replace (length all + 1 - 100)%nat with (S (length all - 100)) by lia.
    rewrite <-(drop_app_le all [e] (length all - 100)) by lia.
    destruct (drop (length all - 100) (all ++ [e])) as [|x l] eqn:Hd.
    + apply (f_equal length) in Hd. rewrite length_drop, length_app in Hd.
      cbn in Hd. lia.
    + cbn [tail].
      replace (S (length all - 100)) with (length all - 100 + 1)%nat by lia.
      rewrite <-(drop_drop (all ++ [e]) 1 (length all - 100)), Hd. reflexivity.
  - replace (length all + 1 - 100)%nat with (length all - 100)%nat by lia.
    rewrite (drop_app_le all [e] (length all - 100)) by lia. reflexivity.
Qed.

End ErrorLog.

(** X12: the error log is a window of 100.  After any calls of the
    handlers on an empty log, none of which throws, the log holds the
    errors of the last 100 calls, oldest first, each with the type of
    its handler and the clock of its call. *)
Theorem error_log_keeps_last_100 (cs : list ErrorCall) :
  ∃ s all,
    handleCalls cs (ErrorHandler.mkState [] []) = Some s ∧
    ErrorHandler.getErrorLog s = drop (length cs - 100) all ∧
    (length (ErrorHandler.getErrorLog s) ≤ 100)%nat ∧
    map ErrorHandler.err_type all = map call_type cs ∧
    map ErrorHandler.err_timestamp all = map call_clock cs.
Proof.
  assert (∀ s0 all0,
    ErrorHandler.errorLog s0 = drop (length all0 - 100) all0 →
    ∃ s all,
      handleCalls cs s0 = Some s ∧
      ErrorHandler.errorLog s = drop (length (all0 ++ all) - 100) (all0 ++ all) ∧
      map ErrorHandler.err_type all = map call_type cs ∧
      map ErrorHandler.err_timestamp all = map call_clock cs) as H.
  { induction cs as [|c cs IH]; intros s0 all0 Hlog.
    - exists s0, []. rewrite app_nil_r. by repeat split.
    - destruct (handleCall_logs c s0) as (e & s1 & Hc & Hlog1 & Hty & Hts).
      destruct (IH s1 (all0 ++ [e])) as (s & all & Hrun & Hlog' & Htys & Htss).
      { rewrite Hlog1. by apply logError_window. }
      exists s, (e :: all). unfold handleCalls in *. cbn [foldl]. rewrite Hc.
      split; [exact Hrun|]. rewrite <-app_assoc in Hlog'. cbn [app] in Hlog'.
      split; [exact Hlog'|]. cbn [map]. by rewrite Hty, Hts, Htys, Htss. }
  destruct (H (ErrorHandler.mkState [] []) []) as (s & all & Hrun & Hlog & Htys & Htss);
    [done|].
  exists s, all. cbn [app] in Hlog.
  assert (length all = length cs) as Hlen.
  { apply (f_equal length) in Htys. by rewrite !length_map in Htys. }
  unfold ErrorHandler.getErrorLog. rewrite Hlog, Hlen.
  split; [exact Hrun|]. split; [reflexivity|]. split; [|by split].
  rewrite length_drop. lia.
Qed.

(** X13: no handler throws.  Each one logs its error as the newest
    entry of the log and shows at most one alert: none for a cache error
    of a read, the message of the error (or a default for an empty one)
    for an unknown error, and otherwise one of five fixed texts, in
    which nothing of the error itself appears. *)
Theorem handlers_log_and_alert (c : ErrorCall) (s : ErrorHandler.State) :
  ∃ e s',
    handleCall c s = Some s' ∧
    last (ErrorHandler.getErrorLog s') = Some e ∧
    ErrorHandler.err_type e = call_type c ∧
    ErrorHandler.err_timestamp e = call_clock c ∧
    match c with
    | CallCache _ error _ =>
        match ErrorHandler.operation error with
        | ErrorHandler.OperationRead => ErrorHandler.alerts s' = ErrorHandler.alerts s
        | _ => ErrorHandler.alerts s'
               = ErrorHandler.alerts s
                 ++ [("Cache Error",
                      "There was an issue with cached content. The app will continue to work normally.")]
        end
    | CallUnknown _ error _ =>
        ErrorHandler.alerts s'
        = ErrorHandler.alerts s
          ++ [("Error",
               match ErrorHandler.error_message error with
               | EmptyString => "An unexpected error occurred"
               | m => m
               end)]
    | _ => ∃ a, a ∈ fixed_alerts ∧
                ErrorHandler.alerts s' = ErrorHandler.alerts s ++ [a]
    end.
Proof.
  destruct c as [now err ctx|now err ctx|now err ctx|now err ctx|now err ctx]; cbn [handleCall].
  - eexists _, _. split; [reflexivity|]. split; [apply logError_last|].
    split; [done|]. split; [done|].
    cbn. destruct (ErrorHandler.isLikelyOffline err); eexists; (split; [|reflexivity]).
    + apply list_elem_of_here.
    + apply list_elem_of_further, list_elem_of_here.
  - eexists _, _. split; [reflexivity|]. split; [apply logError_last|].
    split; [done|]. split; [done|].
    eexists. split; [|reflexivity]. do 2 apply list_elem_of_further. apply list_elem_of_here.
  - unfold ErrorHandler.handleCacheError.
    destruct (ErrorHandler.operation err); eexists _, _;
      (split; [reflexivity|]); (split; [apply logError_last|]); done.
  - eexists _, _. split; [reflexivity|]. split; [apply logError_last|].
    split; [done|]. split; [done|].
    eexists. split; [|reflexivity]. do 4 apply list_elem_of_further. apply list_elem_of_here.
  - eexists _, _. split; [reflexivity|]. split; [apply logError_last|]. done.
Qed.

Section OfflineWords.

Import ErrorHandler.

Lemma toLowerCase_char_idem c :
  toLowerCase_char (toLowerCase_char c) = toLowerCase_char c.
Proof. destruct c as [[] [] [] [] [] [] [] []]; vm_compute; reflexivity. Qed.

Lemma toLowerCase_idem s : toLowerCase (toLowerCase s) = toLowerCase s.
Proof.
  induction s as [|c s IH]; [done|]. cbn [toLowerCase].
  by rewrite toLowerCase_char_idem, IH.
Qed.

Lemma append_cons c s1 s2 : String c s1 +:+ s2 = String c (s1 +:+ s2).
Proof. reflexivity. Qed.

Lemma append_nil s : "" +:+ s = s.
Proof. reflexivity. Qed.

Lemma toLowerCase_app s1 s2 :
  toLowerCase (s1 +:+ s2) = toLowerCase s1 +:+ toLowerCase s2.
Proof.
  induction s1 as [|c s1 IH]; [done|].
  rewrite append_cons. cbn [toLowerCase]. by rewrite IH, append_cons.
Qed.

Lemma prefix_app k b : String.prefix k (k +:+ b) = true.
Proof.
  induction k as [|c k IH].
  - rewrite append_nil. by destruct b.
  - rewrite append_cons. cbn [String.prefix].
    destruct (ascii_dec c c); [exact IH|done].
Qed.

Lemma includes_unfold s sub :
  includes s sub
  = if String.prefix sub s then true
    else match s with
         | EmptyString => false
         | String _ s' => includes s' sub
         end.
Proof. by destruct s. Qed.

Lemma includes_app a k b : includes (a +:+ k +:+ b) k = true.
Proof.
  induction a as [|c a IH].
  - rewrite append_nil, includes_unfold. by rewrite prefix_app.
  - rewrite append_cons, includes_unfold.
    destruct (String.prefix k _); [done|exact IH].
Qed.

End OfflineWords.

(** X14: [isLikelyOffline] does not look at the case of the message: a
    message and its lower-case form get the same answer, and a message
    that holds one of the five words in any mix of cases is taken for an
    offline error, which [getNetworkErrorMessage] then reports as
    [Device appears to be offline]. *)
Theorem isLikelyOffline_ignores_case :
  (∀ m, ErrorHandler.isLikelyOffline (ErrorHandler.mkJsError (toLowerCase m))
        = ErrorHandler.isLikelyOffline (ErrorHandler.mkJsError m)) ∧
  (∀ a w b,
     toLowerCase w ∈ offline_words →
     ErrorHandler.isLikelyOffline (ErrorHandler.mkJsError (a +:+ w +:+ b)) = true ∧
     ErrorHandler.getNetworkErrorMessage (ErrorHandler.mkJsError (a +:+ w +:+ b))
     = "Device appears to be offline").
Proof.
  split.
  - intros m. unfold ErrorHandler.isLikelyOffline. cbn [ErrorHandler.error_message].
    by rewrite toLowerCase_idem.
  - intros a w b Hw.
    assert (ErrorHandler.isLikelyOffline (ErrorHandler.mkJsError (a +:+ w +:+ b)) = true)
      as Hoff.
    { unfold ErrorHandler.isLikelyOffline. cbn [ErrorHandler.error_message].
      rewrite !toLowerCase_app.
      pose proof (includes_app (toLowerCase a) (toLowerCase w) (toLowerCase b)) as Hinc.
      set (m := toLowerCase a +:+ toLowerCase w +:+ toLowerCase b) in *.
      unfold offline_words in Hw.
      repeat (apply elem_of_cons in Hw as [Hw|Hw];
              [rewrite Hw in Hinc; rewrite Hinc;
               by rewrite ?orb_true_r, ?orb_true_l|]).
      by apply elem_of_nil in Hw. }
    split; [exact Hoff|]. unfold ErrorHandler.getNetworkErrorMessage. by rewrite Hoff.
Qed.

Lemma isLikelyOffline_ignores_case_witness :
  ErrorHandler.getNetworkErrorMessage
    (ErrorHandler.mkJsError ("Fetch failed: " +:+ "NetWork" +:+ " request"))
  = "Device appears to be offline".
Proof.
  destruct isLikelyOffline_ignores_case as [_ H].
  destruct (H "Fetch failed: " "NetWork" " request") as [_ Hm]; [|exact Hm].
  apply list_elem_of_here.
Defined.

(** * The listeners of NetworkService *)

Section Listeners.

Import NetworkService.

Lemma spliceFirst_app_perm callback (l : list nat) :
  spliceFirst callback (l ++ [callback]) ≡ₚ l.
Proof.
  induction l as [|c l IH]; cbn.
  - by rewrite Nat.eqb_refl.
  - destruct (Nat.eqb_spec c callback) as [->|Hne].
    + symmetry. apply Permutation_cons_append.
    + by rewrite IH.
Qed.

Lemma spliceFirst_app_fresh callback (l : list nat) :
  callback ∉ l → spliceFirst callback (l ++ [callback]) = l.
Proof.
  induction l as [|c l IH]; cbn; intros Hnin.
  - by rewrite Nat.eqb_refl.
  - apply not_elem_of_cons in Hnin as [Hne Hnin].
    destruct (Nat.eqb_spec c callback) as [->|_]; [done|]. by rewrite IH.
Qed.

Lemma spliceFirst_absent callback (l : list nat) :
  callback ∉ l → spliceFirst callback l = l.
Proof.
  induction l as [|c l IH]; cbn; intros Hnin; [done|].
  apply not_elem_of_cons in Hnin as [Hne Hnin].
  destruct (Nat.eqb_spec c callback) as [->|_]; [done|]. by rewrite IH.
Qed.

Lemma filter_other_handlers (n : nat) (hs : list (nat * nat)) :
  Forall (λ h, (h.1 < n)%nat) hs → filter (λ h, h.1 ≠ n) hs = hs.
Proof.
  induction 1 as [|h hs Hh Hhs IH]; [done|].
  rewrite filter_cons, IH. rewrite decide_True; [done|lia].
Qed.

End Listeners.

(** X15: the bookkeeping of the listeners.  [addNetworkListener]
    followed by the function it returned cancels the registration with
    [NetInfo] and leaves the [listeners] array with the callbacks it
    had, in the same order when the callback was not registered before;
    the callback is notified in between.  [removeAllListeners] only
    empties the array: every callback is still notified, and the
    function of an earlier registration still cancels it. *)
Theorem listener_bookkeeping (callback : nat) (s : NetworkService.Subscriptions) :
  Forall (λ h, (h.1 < NetworkService.nextHandler s)%nat) (NetworkService.netInfoHandlers s) →
  let '(handler, s1) := NetworkService.addNetworkListener callback s in
  let s2 := NetworkService.unsubscribeListener handler callback s1 in
  NetworkService.notified s1 = NetworkService.notified s ++ [callback] ∧
  NetworkService.listeners s2 ≡ₚ NetworkService.listeners s ∧
  (callback ∉ NetworkService.listeners s →
   NetworkService.listeners s2 = NetworkService.listeners s) ∧
  NetworkService.netInfoHandlers s2 = NetworkService.netInfoHandlers s ∧
  NetworkService.notified (NetworkService.removeAllListeners s1)
  = NetworkService.notified s ++ [callback] ∧
  NetworkService.unsubscribeListener handler callback (NetworkService.removeAllListeners s1)
  = NetworkService.mkSubscriptions [] (NetworkService.netInfoHandlers s)
      (S (NetworkService.nextHandler s)).
Proof.
  intros Hfresh. cbn.
  assert (filter (λ h : nat * nat, h.1 ≠ NetworkService.nextHandler s)
            (NetworkService.netInfoHandlers s
             ++ [(NetworkService.nextHandler s, callback)])
          = NetworkService.netInfoHandlers s) as Hfilter.
  { rewrite filter_app, filter_other_handlers by done.
    rewrite filter_cons, decide_False by (cbn; lia). cbn. apply app_nil_r. }
  unfold NetworkService.notified, NetworkService.unsubscribeListener. cbn.
  rewrite Hfilter. split.
  { by rewrite map_app. }
  split; [apply spliceFirst_app_perm|].
  split; [apply spliceFirst_app_fresh|].
  split; [done|]. split; [by rewrite map_app|done].
Qed.

Lemma listener_bookkeeping_witness :
  let s := NetworkService.mkSubscriptions [7; 8]%nat [(0, 7); (1, 8)]%nat 2%nat in
  NetworkService.listeners
    (NetworkService.unsubscribeListener 2%nat 9%nat
       (NetworkService.addNetworkListener 9%nat s).2)
  = [7; 8]%nat.
Proof.
  intros s. pose proof (listener_bookkeeping 9%nat s) as H. cbn in H.
  destruct H as (_ & _ & H & _).
  - repeat constructor.
  - apply H. apply (bool_decide_unpack _). vm_compute. exact I.
Defined.

(** * The offline fallback of the portfolio screen *)

Section Fallback.

Import PortfolioScreen.

Implicit Types (w : World) (st : Storage).


(** What [handleOfflineLoad] makes of the store. *)
Lemma handleOfflineLoad_fresh now w e :
  getEntry (getCacheKey PORTFOLIO_URL) (storage w) = Some e →
  now ≤ expiresAt e →
  handleOfflineLoad now w
  = mkWorld
      (match data e with
       | EmptyString => setShowOfflineMessage true (screen w)
       | _ => setShowOfflineMessage true
                (setWebViewSource (SourceDataUri (data e)) (screen w))
       end)
      (listenerIsOnline w) (monitor w) (storage w) (cacheReads w ++ [PORTFOLIO_URL]).
Proof.
  intros He Hfresh. unfold handleOfflineLoad, getCachedResource. rewrite He.
  destruct (Z.ltb_spec (expiresAt e) now); [lia|]. unfold truthy.
  by destruct (data e).
Qed.

Lemma handleOfflineLoad_nothing now w :
  (getCachedResource now PORTFOLIO_URL (storage w)).1 = None →
  handleOfflineLoad now w
  = mkWorld (setShowOfflineMessage true (screen w)) (listenerIsOnline w) (monitor w)
      (getCachedResource now PORTFOLIO_URL (storage w)).2
      (cacheReads w ++ [PORTFOLIO_URL]).
Proof.
  intros Hnone. unfold handleOfflineLoad.
  destruct (getCachedResource now PORTFOLIO_URL (storage w)) as [c st'].
  cbn in Hnone. by subst c.
Qed.

(** The entry of a write that fits is in the store after the call. *)
Lemma cacheResource_keeps_entry now now_idx u d ct st :
  Z.of_nat (String.length d) ≤ MAX_CACHE_SIZE →
  index_consistent (getCacheIndex st) →
  NoDup (map rec_url (entries (getCacheIndex st))) →
  Forall (λ r, rec_timestamp r ≤ now_idx) (entries (getCacheIndex st)) →
  Forall (λ r, getCacheKey (rec_url r) = getCacheKey u → rec_url r = u)
         (entries (getCacheIndex st)) →
  getEntry (getCacheKey u) (cacheResource now now_idx u d ct st)
  = Some (newEntry now u d ct).
Proof.
  intros Hsz Hcons Hnd Hts Hcol.
  set (e := newEntry now u d ct).
  unfold cacheResource. fold e.
  set (st1 := setCacheData (getCacheKey u) (ItemEntry e) st).
  set (st2 := updateCacheIndex now_idx u (size e) st1).
  assert (getEntry (getCacheKey u) st2 = Some e) as He2.
  { subst st2 st1. unfold updateCacheIndex.
    rewrite getEntry_set_index. apply getEntry_set_eq. }
  destruct (Z.le_gt_cases (totalSize (getCacheIndex st2)) MAX_CACHE_SIZE) as [Hle|Hgt].
  { by rewrite enforceCacheSizeLimit_under. }
  assert (∃ rest,
    getCacheIndex st2
    = mkCacheIndex (sum_sizes rest + size e) (rest ++ [mkIndexRecord u (size e) now_idx]) ∧
    Forall (λ r, rec_timestamp r ≤ now_idx) rest ∧
    Forall (λ r, getCacheKey (rec_url r) ≠ getCacheKey u) rest) as (rest & Hi & Hts' & Hk).
  { subst st2. rewrite getCacheIndex_updateCacheIndex. subst st1.
    rewrite getCacheIndex_set_entry. red in Hcons.
    destruct (splice_url u (entries (getCacheIndex st))) as [[old rest]|] eqn:Hs.
    - exists rest. split; [|split].
      + f_equal. rewrite Hcons, (splice_url_sum _ _ _ _ Hs). lia.
      + apply Forall_forall. intros x Hx.
        apply (proj1 (Forall_forall _ _) Hts). by eapply splice_url_subset.
      + destruct (splice_url_NoDup _ _ _ _ Hs Hnd) as [_ Hne].
        apply Forall_forall. intros x Hx Hkey.
        apply (proj1 (Forall_forall _ _) Hne x Hx).
        apply (proj1 (Forall_forall _ _) Hcol x); [|done].
        by eapply splice_url_subset.
    - exists (entries (getCacheIndex st)). split; [|split].
      + f_equal. lia.
      + done.
      + apply splice_url_None in Hs.
        apply Forall_forall. intros x Hx Hkey.
        apply (proj1 (Forall_forall _ _) Hs x Hx).
        by apply (proj1 (Forall_forall _ _) Hcol x). }
  unfold enforceCacheSizeLimit.
  destruct (Z.leb_spec (totalSize (getCacheIndex st2)) MAX_CACHE_SIZE) as [?|_]; [lia|].
  rewrite Hi. cbn [entries totalSize].
  rewrite sort_by_timestamp_last by done.
  rewrite evict_keeps_last
    by (rewrite (sum_sizes_perm _ _ (sort_by_timestamp_perm rest)); subst e; cbn; lia).
  destruct (evict_spec (sort_by_timestamp rest) (sum_sizes rest + size e) st2)
    as (evicted & kept & Hsplit & -> & _ & _).
  cbn [fst snd]. rewrite getEntry_set_index.
  unfold getEntry, getCacheData. rewrite lookup_foldl_remove.
  rewrite decide_False; [exact He2|].
  unfold evicted_keys. intros (r & Hr & Hin)%list_elem_of_fmap.
  apply storeKey_inj in Hr.
  apply (proj1 (Forall_forall _ _) Hk r); [|done].
  rewrite <-(sort_by_timestamp_perm rest), Hsplit. apply elem_of_app. by left.
Qed.





End Fallback.

(** X16: what the screen shows when the connection is lost.  The offline
    banner comes up in every case.  With an unexpired entry for the
    portfolio URL in the store, the WebView is given the cached page as
    a data URI (unless the page is empty) and the store is not touched;
    with an expired entry the source stays and the entry is deleted;
    with no entry the source and the store stay. *)
Theorem offline_fallback (fuel : nat) (now : Z) (state : NetInfoState)
    (w : PortfolioScreen.World) :
  PortfolioScreen.isOnline (PortfolioScreen.screen w) = true →
  PortfolioScreen.listenerIsOnline w = true →
  NetworkService.isOnline state = false →
  let w2 := PortfolioScreen.connectivityCallback (S fuel) now state w in
  let source := PortfolioScreen.webViewSource (PortfolioScreen.screen w) in
  let source2 := PortfolioScreen.webViewSource (PortfolioScreen.screen w2) in
  PortfolioScreen.showOfflineMessage (PortfolioScreen.screen w2) = true ∧
  match getEntry (getCacheKey PortfolioScreen.PORTFOLIO_URL) (PortfolioScreen.storage w) with
  | Some e =>
      if expiresAt e <? now
      then source2 = source ∧
           getEntry (getCacheKey PortfolioScreen.PORTFOLIO_URL) (PortfolioScreen.storage w2)
           = None
      else PortfolioScreen.storage w2 = PortfolioScreen.storage w ∧
           source2 = match data e with
                     | EmptyString => source
                     | _ => PortfolioScreen.SourceDataUri (data e)
                     end
  | None => PortfolioScreen.storage w2 = PortfolioScreen.storage w ∧ source2 = source
  end.
Proof.
  intros Hon Hlis Hoff. cbv zeta.
  rewrite connectivityCallback_goes_offline by done.
  set (w0 := PortfolioScreen.mkWorld _ _ _ _ _).
  change (PortfolioScreen.storage w) with (PortfolioScreen.storage w0).
  change (PortfolioScreen.webViewSource (PortfolioScreen.screen w))
    with (PortfolioScreen.webViewSource (PortfolioScreen.screen w0)).
  destruct (getEntry (getCacheKey PortfolioScreen.PORTFOLIO_URL) (PortfolioScreen.storage w0))
    as [e|] eqn:He.
  - destruct (Z.ltb_spec (expiresAt e) now) as [Hexp|Hfresh].
    + rewrite handleOfflineLoad_nothing.
      * cbn [PortfolioScreen.screen PortfolioScreen.storage]. split; [done|]. split; [done|].
        unfold getCachedResource. rewrite He.
        destruct (Z.ltb_spec (expiresAt e) now); [|lia]. cbn [snd].
        apply getEntry_removeCachedResource.
      * unfold getCachedResource. rewrite He.
        by destruct (Z.ltb_spec (expiresAt e) now); [|lia].
    + rewrite (handleOfflineLoad_fresh now w0 e He Hfresh).
      cbn [PortfolioScreen.screen PortfolioScreen.storage].
      by destruct (data e).
  - rewrite handleOfflineLoad_nothing.
    + cbn [PortfolioScreen.screen PortfolioScreen.storage].
      unfold getCachedResource. by rewrite He.
    + unfold getCachedResource. by rewrite He.
Qed.

Lemma offline_fallback_witness :
  let offline := mkNetInfoState (Some false) None "none" in
  let w := PortfolioScreen.mkWorld
             (PortfolioScreen.mkScreen true false
                (PortfolioScreen.SourceUri PortfolioScreen.PORTFOLIO_URL))
             true (mkNetInfoState (Some true) (Some true) "wifi") ∅ [] in
  PortfolioScreen.showOfflineMessage
    (PortfolioScreen.screen (PortfolioScreen.connectivityCallback 1 0 offline w)) = true.
Proof.
  intros offline w.
  destruct (offline_fallback 0 0 offline w) as [H _]; [reflexivity..|exact H].
Defined.

(** X17: the page seen last is the page shown offline.  When the
    script of a loaded page posts its content for the portfolio URL
    while the screen is online, [handleMessage] caches it as
    [text/html]; if the connection is then lost within the hour, the
    WebView is given exactly that content.  (The store is as for a read
    after a write: consistent index, one record per URL, no later
    timestamp, no other URL with the key of the portfolio URL; the
    content is not empty and fits under the ceiling.) *)
Theorem cached_page_shown_offline (fuel : nat) (now now_idx now' : Z) (content : string)
    (state : NetInfoState) (w : PortfolioScreen.World) :
  PortfolioScreen.isOnline (PortfolioScreen.screen w) = true →
  PortfolioScreen.listenerIsOnline w = true →
  NetworkService.isOnline state = false →
  content ≠ EmptyString →
  Z.of_nat (String.length content) ≤ MAX_CACHE_SIZE →
  index_consistent (getCacheIndex (PortfolioScreen.storage w)) →
  NoDup (map rec_url (entries (getCacheIndex (PortfolioScreen.storage w)))) →
  Forall (λ r, rec_timestamp r ≤ now_idx)
         (entries (getCacheIndex (PortfolioScreen.storage w))) →
  Forall (λ r, getCacheKey (rec_url r) = getCacheKey PortfolioScreen.PORTFOLIO_URL →
               rec_url r = PortfolioScreen.PORTFOLIO_URL)
         (entries (getCacheIndex (PortfolioScreen.storage w))) →
  now' ≤ now + 60 * 60 * 1000 →
  let message :=
    PortfolioScreen.mkPageMessage "pageContent" PortfolioScreen.PORTFOLIO_URL content in
  let w1 := PortfolioScreen.handleMessage now now_idx (Some message) w in
  let w2 := PortfolioScreen.connectivityCallback (S fuel) now' state w1 in
  PortfolioScreen.webViewSource (PortfolioScreen.screen w2)
  = PortfolioScreen.SourceDataUri content ∧
  PortfolioScreen.showOfflineMessage (PortfolioScreen.screen w2) = true ∧
  PortfolioScreen.isOnline (PortfolioScreen.screen w2) = false.
Proof.
  intros Hon Hlis Hoff Hne Hsz Hcons Hnd Hts Hcol Hfresh. cbv zeta.
  unfold PortfolioScreen.handleMessage. cbn [PortfolioScreen.msg_type
    PortfolioScreen.msg_url PortfolioScreen.msg_content].
  rewrite Hon.
  change (("pageContent" =? "pageContent")%string && true) with true. cbv iota.
  rewrite connectivityCallback_goes_offline by done.
  cbn [PortfolioScreen.screen PortfolioScreen.storage PortfolioScreen.cacheReads].
  set (st1 := cacheResource now now_idx PortfolioScreen.PORTFOLIO_URL content "text/html"
                (PortfolioScreen.storage w)).
  set (w0 := PortfolioScreen.mkWorld _ _ _ _ _).
  assert (getEntry (getCacheKey PortfolioScreen.PORTFOLIO_URL) (PortfolioScreen.storage w0)
          = Some (newEntry now PortfolioScreen.PORTFOLIO_URL content "text/html")) as He.
  { subst w0 st1. cbn [PortfolioScreen.storage]. by apply cacheResource_keeps_entry. }
  assert (getExpirationTime "text/html" = 60 * 60 * 1000) as Hexp
    by (vm_compute; reflexivity).
  rewrite (handleOfflineLoad_fresh now' w0 _ He)
    by (cbn [newEntry expiresAt]; rewrite Hexp; lia).
  cbn [newEntry data PortfolioScreen.screen].
  by destruct content.
Qed.

Lemma cached_page_shown_offline_witness :
  let offline := mkNetInfoState (Some false) None "none" in
  let w := PortfolioScreen.mkWorld
             (PortfolioScreen.mkScreen true false
                (PortfolioScreen.SourceUri PortfolioScreen.PORTFOLIO_URL))
             true (mkNetInfoState (Some true) (Some true) "wifi") ∅ [] in
  let w1 := PortfolioScreen.handleMessage 0 0
              (Some (PortfolioScreen.mkPageMessage "pageContent"
                       PortfolioScreen.PORTFOLIO_URL "<html>hi</html>")) w in
  PortfolioScreen.webViewSource
    (PortfolioScreen.screen (PortfolioScreen.connectivityCallback 1 1000 offline w1))
  = PortfolioScreen.SourceDataUri "<html>hi</html>".
Proof.
  intros offline w w1.
  destruct (cached_page_shown_offline 0 0 0 1000 "<html>hi</html>" offline w) as [H _];
    [reflexivity|reflexivity|reflexivity|discriminate|vm_compute; discriminate
    |reflexivity|constructor|constructor|constructor|lia|exact H].
Defined.




